(** * Reactive-Resume: the Work modal and the rich-text link toolbar

  A shallow embedding of
  - [apps/client/modals/builder/sections/WorkModal.tsx]: the Joi field
    schema, the validated submit of react-hook-form, the add/edit dispatch, the
    close handler, the payload effect and the date-picker handlers;
  - the rich-input component (toolbar, link and image sub-forms): the
    link sub-form's initial values, [setLink] and the Undo button.

  JavaScript strings are modelled as [string]; objects as records;
  [undefined]/[null] as [None]; the redux store as a state with a reducer
  and the trace of dispatched actions; the embedded editor (TipTap /
  ProseMirror, an external library) as a single text block of characters
  that each carry an optional link mark. *)

From Stdlib Require Import ZArith List String Ascii Bool Lia.
Import ListNotations.

Local Open Scope list_scope.

(* ================================================================== *)
(** * Regular expressions as used by the [url] rule                     *)
(* ================================================================== *)

Module Regex.

(** The pattern of the schema only needs character classes with a
    repetition range, and the word-boundary assertion [\b].  A literal
    character is a one-element class repeated exactly once; the final
    capture group [( [...]* )] is a class repeated [0..] times. *)
Inductive atom : Type :=
| Class (c : ascii -> bool) (lo : nat) (hi : option nat)
| WordBoundary.

Definition regex : Type := list atom.

Definition code (a : ascii) : N := N_of_ascii a.

Definition in_range (lo hi : N) (a : ascii) : bool :=
  (N.leb lo (code a) && N.leb (code a) hi)%bool.

Definition is_lower : ascii -> bool := in_range 97 122.
Definition is_upper : ascii -> bool := in_range 65 90.
Definition is_digit : ascii -> bool := in_range 48 57.
Definition is_alnum (a : ascii) : bool :=
  (is_lower a || is_upper a || is_digit a)%bool.

Definition one_of (s : string) (a : ascii) : bool :=
  existsb (Ascii.eqb a) (list_ascii_of_string s).

(** [\w] of JavaScript: [[A-Za-z0-9_]]. *)
Definition is_word (a : ascii) : bool :=
  (is_alnum a || Ascii.eqb a "_")%bool.

Definition is_word_at (o : option ascii) : bool :=
  match o with Some a => is_word a | None => false end.

Definition may_take (hi : option nat) : bool :=
  match hi with Some 0 => false | _ => true end.

Definition dec_hi (hi : option nat) : option nat :=
  match hi with Some n => Some (pred n) | None => None end.

(** [match_here r prev s]: does [r] match a prefix of [s], the character
    before the current position being [prev]?  All ways of splitting the
    repetitions are tried, as the backtracking matcher does. *)
Fixpoint match_here (r : regex) : option ascii -> list ascii -> bool :=
  match r with
  | [] => fun _ _ => true
  | WordBoundary :: r' =>
      fun prev s =>
        (xorb (is_word_at prev) (is_word_at (hd_error s))
         && match_here r' prev s)%bool
  | Class c lo hi :: r' =>
      fun prev s =>
        (fix rep (s : list ascii) (lo : nat) (hi : option nat)
             (prev : option ascii) {struct s} : bool :=
           ((match lo with 0 => match_here r' prev s | S _ => false end)
            || match s with
               | a :: s' =>
                   may_take hi && c a && rep s' (pred lo) (dec_hi hi) (Some a)
               | [] => false
               end)%bool) s lo hi prev
  end.

(** An unanchored search: the match may start at any position. *)
Fixpoint search (r : regex) (prev : option ascii) (s : list ascii) : bool :=
  (match_here r prev s
   || match s with
      | a :: s' => search r (Some a) s'
      | [] => false
      end)%bool.

(** [RegExp.prototype.test] without flags. *)
Definition test (r : regex) (s : string) : bool :=
  search r None (list_ascii_of_string s).

End Regex.

(* ================================================================== *)
(** * [Date.prototype.toISOString]                                      *)
(* ================================================================== *)

Module JsDate.

Local Open Scope Z_scope.

(** The time value of a [Date]: milliseconds since the epoch.  [None]
    stands for a [null] date and for an Invalid Date (time value NaN),
    which are the values [dayjs(date).isValid()] rejects. *)
Definition Date : Type := option Z.

Definition isValid (d : Date) : bool :=
  match d with Some _ => true | None => false end.

(** Time values are integers of absolute value at most 8.64e15. *)
Definition maxTime : Z := 8640000000000000.
Definition time_value (t : Z) : Prop := - maxTime <= t <= maxTime.

(** A date as the picker can hand it over. *)
Definition date_ok (date : Date) : Prop :=
  match date with Some t => time_value t | None => True end.

Definition msPerDay : Z := 86400000.

Definition Day (t : Z) : Z := t / msPerDay.
Definition TimeWithinDay (t : Z) : Z := t mod msPerDay.
Definition HourFromTime (t : Z) : Z := TimeWithinDay t / 3600000.
Definition MinFromTime (t : Z) : Z := (TimeWithinDay t / 60000) mod 60.
Definition SecFromTime (t : Z) : Z := (TimeWithinDay t / 1000) mod 60.
Definition msFromTime (t : Z) : Z := TimeWithinDay t mod 1000.

(** The proleptic Gregorian date of a day number, by 400-year eras that
    start on 1 March: the year of the era, the month (1 to 12) and the
    day of the month, from the day of the era. *)
Definition civil_of_doe (doe : Z) : Z * Z * Z :=
  let yoe := (doe - doe / 1460 + doe / 36524 - doe / 146096) / 365 in
  let doy := doe - (365 * yoe + yoe / 4 - yoe / 100) in
  let mp := (5 * doy + 2) / 153 in
  let d := doy - (153 * mp + 2) / 5 + 1 in
  let m := if mp <? 10 then mp + 3 else mp - 9 in
  (yoe, m, d).

Definition civil_from_days (days : Z) : Z * Z * Z :=
  let z := days + 719468 in
  let era := z / 146097 in
  let '(yoe, m, d) := civil_of_doe (z mod 146097) in
  let y := yoe + era * 400 in
  ((if m <=? 2 then y + 1 else y), m, d).

Definition digit (n : Z) : ascii := ascii_of_N (48 + Z.to_N n).

(** [n] written with exactly [w] decimal digits. *)
Fixpoint pad (w : nat) (n : Z) : list ascii :=
  match w with
  | O => []
  | S w' => pad w' (n / 10) ++ [digit (n mod 10)]
  end.

(** Years 0 to 9999 take four digits, the others a sign and six. *)
Definition year_chars (y : Z) : list ascii :=
  if (0 <=? y) && (y <=? 9999) then pad 4 y
  else if y <? 0 then "-"%char :: pad 6 (- y)
  else "+"%char :: pad 6 y.

Definition iso_chars (t : Z) : list ascii :=
  let '(y, m, d) := civil_from_days (Day t) in
  year_chars y
    ++ "-"%char :: pad 2 m
    ++ "-"%char :: pad 2 d
    ++ "T"%char :: pad 2 (HourFromTime t)
    ++ ":"%char :: pad 2 (MinFromTime t)
    ++ ":"%char :: pad 2 (SecFromTime t)
    ++ "."%char :: pad 3 (msFromTime t)
    ++ ["Z"%char].

Definition toISOString (t : Z) : string :=
  string_of_list_ascii (iso_chars t).

(** ** Recognising an ISO-8601 instant: [YYYY-MM-DDTHH:mm:ss.sssZ], or
    the same with a signed six-digit year. *)

Definition digit_value (a : ascii) : option Z :=
  let c := N_of_ascii a in
  if (N.leb 48 c && N.leb c 57)%bool then Some (Z.of_N c - 48) else None.

Fixpoint take_num (w : nat) (acc : Z) (l : list ascii)
  : option (Z * list ascii) :=
  match w with
  | O => Some (acc, l)
  | S w' =>
      match l with
      | a :: l' =>
          match digit_value a with
          | Some v => take_num w' (10 * acc + v) l'
          | None => None
          end
      | [] => None
      end
  end.

Definition expect (c : ascii) (l : list ascii) : option (list ascii) :=
  match l with
  | a :: l' => if Ascii.eqb a c then Some l' else None
  | [] => None
  end.

Definition bind {A B : Type} (o : option A) (f : A -> option B) : option B :=
  match o with Some a => f a | None => None end.

Local Notation "x <- e ;; k" := (bind e (fun x => k))
  (at level 61, e at next level, right associativity).
Local Notation "' p <- e ;; k" := (bind e (fun x => let p := x in k))
  (at level 61, p pattern, e at next level, right associativity).

Definition between (lo hi v : Z) : bool := (lo <=? v) && (v <=? hi).

Definition parse_year (l : list ascii) : option (Z * list ascii) :=
  match l with
  | a :: l' =>
      if Ascii.eqb a "+" then take_num 6 0 l'
      else if Ascii.eqb a "-" then
        ' (y, r) <- take_num 6 0 l' ;; Some (- y, r)
      else take_num 4 0 l
  | [] => None
  end.

Definition parse_instant (l : list ascii) : option unit :=
  ' (_, l) <- parse_year l ;;
  l <- expect "-" l ;;
  ' (m, l) <- take_num 2 0 l ;;
  l <- expect "-" l ;;
  ' (d, l) <- take_num 2 0 l ;;
  l <- expect "T" l ;;
  ' (h, l) <- take_num 2 0 l ;;
  l <- expect ":" l ;;
  ' (mi, l) <- take_num 2 0 l ;;
  l <- expect ":" l ;;
  ' (s, l) <- take_num 2 0 l ;;
  l <- expect "." l ;;
  ' (_, l) <- take_num 3 0 l ;;
  l <- expect "Z" l ;;
  match l with
  | [] =>
      if between 1 12 m && between 1 31 d && between 0 23 h
         && between 0 59 mi && between 0 59 s
      then Some tt else None
  | _ :: _ => None
  end.

Definition is_iso_instant (s : string) : bool :=
  match parse_instant (list_ascii_of_string s) with
  | Some _ => true
  | None => false
  end.

(** ** Checking the calendar over an era *)

(** [P] holds of the [n] integers from [z] on. *)
Fixpoint all_from (n : nat) (z : Z) (P : Z -> bool) : bool :=
  match n with
  | O => true
  | S k => P z && all_from k (z + 1) P
  end.

Definition civil_ok (doe : Z) : bool :=
  let '(yoe, m, d) := civil_of_doe doe in
  between 0 399 yoe && between 1 12 m && between 1 31 d.

End JsDate.

(* ================================================================== *)
(** * WorkModal.tsx                                                     *)
(* ================================================================== *)

Module WorkModal.

Import Regex.

(** ** Data *)

Record DateRange : Type := mkDateRange {
  start : string;
  end_ : string;
}.

(** [type FormData = WorkExperience].  The fields are those of
    [defaultState]; [id] is the optional identifier of the schema. *)
Record FormData : Type := mkFormData {
  id : option string;
  name : string;
  position : string;
  date : DateRange;
  url : string;
  summary : string;
}.

Definition path : string := "sections.work".

Definition defaultState : FormData := {|
  id := None;
  name := EmptyString;
  position := EmptyString;
  date := {| start := EmptyString; end_ := EmptyString |};
  url := EmptyString;
  summary := EmptyString;
|}.

Definition DateRange_eq_dec (a b : DateRange) : {a = b} + {a <> b}.
Proof. decide equality; apply string_dec. Defined.

Definition FormData_eq_dec (a b : FormData) : {a = b} + {a <> b}.
Proof.
  decide equality; try apply string_dec; try apply DateRange_eq_dec.
  decide equality; apply string_dec.
Defined.

Definition item_eqb (a b : option FormData) : bool :=
  match a, b with
  | None, None => true
  | Some x, Some y => if FormData_eq_dec x y then true else false
  | _, _ => false
  end.

(** ** The Joi schema *)

(** The pattern of the [url] key: a run of 1 to 256 characters of
    [-a-zA-Z0-9@:%._+~#=], a dot, 1 to 6 characters of [a-zA-Z0-9()], a
    word boundary, and any number of characters of
    [-a-zA-Z0-9()@:%_+.~#?&//=].  It is not anchored. *)
Definition url_head (a : ascii) : bool :=
  (is_alnum a || one_of "-@:%._+~#=" a)%bool.
Definition url_tld (a : ascii) : bool :=
  (is_alnum a || one_of "()" a)%bool.
Definition url_tail (a : ascii) : bool :=
  (is_alnum a || one_of "-()@:%_+.~#?&//=" a)%bool.

Definition url_pattern : regex :=
  [ Class url_head 1 (Some 256);
    Class (Ascii.eqb ".") 1 (Some 1);
    Class url_tld 1 (Some 6);
    WordBoundary;
    Class url_tail 0 None ].

Inductive Field : Type :=
| f_id | f_name | f_position | f_date_start | f_date_end | f_url | f_summary.

Inductive JoiError : Type :=
| string_empty                 (* "string.empty" *)
| string_pattern_name.         (* "string.pattern.name", name 'valid URL' *)

Definition is_empty_string (s : string) : bool :=
  match s with EmptyString => true | String _ _ => false end.

(** [Joi.string()]: a string, not the empty one. *)
Definition joi_string (s : string) : list JoiError :=
  if is_empty_string s then [string_empty] else [].

(** [Joi.string().allow('')]: an allowed value ends the validation. *)
Definition joi_string_allow_empty (s : string) : list JoiError := [].

(** [Joi.string().pattern(re, { name }).allow('')]. *)
Definition joi_string_pattern_allow_empty (re : regex) (s : string)
  : list JoiError :=
  if is_empty_string s then []
  else if test re s then [] else [string_pattern_name].

Definition at_field (f : Field) (es : list JoiError)
  : list (Field * JoiError) :=
  map (fun e => (f, e)) es.

(** [schema.validate(value, { abortEarly: false })]: the errors of all
    keys, in the order of the keys. *)
Definition schema (v : FormData) : list (Field * JoiError) :=
  at_field f_id
    (match id v with Some i => joi_string i | None => [] end)
  ++ at_field f_name (joi_string (name v))
  ++ at_field f_position (joi_string (position v))
  ++ at_field f_date_start (joi_string_allow_empty (start (date v)))
  ++ at_field f_date_end (joi_string_allow_empty (end_ (date v)))
  ++ at_field f_url (joi_string_pattern_allow_empty url_pattern (url v))
  ++ at_field f_summary (joi_string_allow_empty (summary v)).

(** ** The store *)

Record ModalState : Type := mkModalState {
  open : bool;
  payload : option FormData;      (* [payload.item], when there is one *)
}.

Inductive Action : Type :=
| setModalState (modal : string) (state : ModalState)
| addItem (path : string) (value : FormData)
| editItem (path : string) (value : FormData).

(** The slice [state.modal['builder.sections.work']] and the trace of
    every action dispatched so far. *)
Record Store : Type := mkStore {
  modal : ModalState;
  dispatched : list Action;
}.

Definition modal_key : string := "builder." ++ path.
Definition items_path : string := path ++ ".items".

(** Modelled from the spec: the reducer of the modal slice, which is not
    among the sources ("dispatch modal open/closed state by modal key"):
    the state given for a key replaces the state stored under it. *)
Definition modalReducer (m : ModalState) (a : Action) : ModalState :=
  match a with
  | setModalState k s => if String.eqb k modal_key then s else m
  | _ => m
  end.

Definition reducer (s : Store) (a : Action) : Store :=
  {| modal := modalReducer (modal s) a;
     dispatched := dispatched s ++ [a] |}.

(** ** The component *)

(** The store, the values and errors held by [useForm], and the [item]
    the effect last ran for (its dependency). *)
Record Modal : Type := mkModal {
  store : Store;
  formValues : FormData;
  errors : list (Field * JoiError);
  effectItem : option FormData;
}.

Definition dispatch (a : Action) (w : Modal) : Modal :=
  {| store := reducer (store w) a;
     formValues := formValues w;
     errors := errors w;
     effectItem := effectItem w |}.

(** [reset(values)] of react-hook-form. *)
Definition reset (v : FormData) (w : Modal) : Modal :=
  {| store := store w;
     formValues := v;
     errors := [];
     effectItem := effectItem w |}.

(** [const item = get(payload, 'item', null)]. *)
Definition item (w : Modal) : option FormData := payload (modal (store w)).

(** [!!item]. *)
Definition isEditMode (w : Modal) : bool :=
  match item w with Some _ => true | None => false end.

(** lodash [isEmpty]: [null] is empty, a record with own keys is not. *)
Definition isEmpty_item (i : option FormData) : bool :=
  match i with Some _ => false | None => true end.

(** [useEffect(() => { if (!isEmpty(item)) reset(item) }, [item, reset])],
    run after a render: only when [item] differs from the one it last
    ran for. *)
Definition useEffect (w : Modal) : Modal :=
  if item_eqb (item w) (effectItem w) then w
  else
    let w' := {| store := store w;
                 formValues := formValues w;
                 errors := errors w;
                 effectItem := item w |} in
    if negb (isEmpty_item (item w)) then
      match item w with
      | Some i => reset i w'
      | None => w'
      end
    else w'.

Definition handleClose (w : Modal) : Modal :=
  let w1 := dispatch (setModalState modal_key
                        {| open := false; payload := None |}) w in
  reset defaultState w1.

Definition onSubmit (formData : FormData) (w : Modal) : Modal :=
  let w1 :=
    if isEditMode w
    then dispatch (editItem items_path formData) w
    else dispatch (addItem items_path formData) w in
  handleClose w1.

(** [handleSubmit(onSubmit)] with [resolver: joiResolver(schema)]: the
    callback runs only when the resolver reports no error; otherwise
    the errors are stored for display. *)
Definition handleSubmit (cb : FormData -> Modal -> Modal) (w : Modal)
  : Modal :=
  match schema (formValues w) with
  | [] => cb (formValues w)
            {| store := store w; formValues := formValues w;
               errors := []; effectItem := effectItem w |}
  | e :: es =>
      {| store := store w; formValues := formValues w;
         errors := e :: es; effectItem := effectItem w |}
  end.

(** The first render: [useForm({ defaultValues: defaultState })], the
    modal closed, nothing dispatched. *)
Definition mount : Modal :=
  {| store := {| modal := {| open := false; payload := None |};
                 dispatched := [] |};
     formValues := defaultState;
     errors := [];
     effectItem := None |}.

(** ** Events: a handler, then the render and its effect *)

(** Another component opens the modal, with or without an item. *)
Definition openModal (p : option FormData) (w : Modal) : Modal :=
  useEffect
    (dispatch (setModalState modal_key {| open := true; payload := p |}) w).

(** The footer button: [onClick={handleSubmit(onSubmit)}]. *)
Definition clickSubmit (w : Modal) : Modal :=
  useEffect (handleSubmit onSubmit w).

(** [BaseModal]'s [handleClose]. *)
Definition clickClose (w : Modal) : Modal :=
  useEffect (handleClose w).

Inductive TextInput : Type := i_name | i_position | i_url | i_summary.

Definition setText (f : TextInput) (s : string) (v : FormData) : FormData :=
  match f with
  | i_name =>
      {| id := id v; name := s; position := position v; date := date v;
         url := url v; summary := summary v |}
  | i_position =>
      {| id := id v; name := name v; position := s; date := date v;
         url := url v; summary := summary v |}
  | i_url =>
      {| id := id v; name := name v; position := position v; date := date v;
         url := s; summary := summary v |}
  | i_summary =>
      {| id := id v; name := name v; position := position v; date := date v;
         url := url v; summary := s |}
  end.

(** A text field's [field.onChange]. *)
Definition typeText (f : TextInput) (s : string) (w : Modal) : Modal :=
  {| store := store w;
     formValues := setText f s (formValues w);
     errors := errors w;
     effectItem := effectItem w |}.

(** ** The date pickers *)

Inductive DateInput : Type := i_date_start | i_date_end.

Definition setDate (f : DateInput) (s : string) (v : FormData) : FormData :=
  match f with
  | i_date_start =>
      {| id := id v; name := name v; position := position v;
         date := {| start := s; end_ := end_ (date v) |};
         url := url v; summary := summary v |}
  | i_date_end =>
      {| id := id v; name := name v; position := position v;
         date := {| start := start (date v); end_ := s |};
         url := url v; summary := summary v |}
  end.

Definition getDate (f : DateInput) (v : FormData) : string :=
  match f with
  | i_date_start => start (date v)
  | i_date_end => end_ (date v)
  end.

(** lodash [isEmpty] of [keyboardInputValue?: string]. *)
Definition isEmpty_input (k : option string) : bool :=
  match k with Some s => is_empty_string s | None => true end.

(** The [onChange] of both pickers, over any state [S] that
    [field.onChange] updates:
    [isEmpty(keyboardInputValue) && field.onChange('');
     dayjs(date).isValid() && field.onChange(date.toISOString());] *)
Definition datePickerOnChange {S : Type} (field_onChange : string -> S -> S)
    (date : JsDate.Date) (keyboardInputValue : option string) (st : S) : S :=
  let st1 :=
    if isEmpty_input keyboardInputValue then field_onChange EmptyString st
    else st in
  if JsDate.isValid date then
    match date with
    | Some t => field_onChange (JsDate.toISOString t) st1
    | None => st1
    end
  else st1.

(** [field.onChange] of a date field, on the form. *)
Definition date_onChange (f : DateInput) (s : string) (w : Modal) : Modal :=
  {| store := store w;
     formValues := setDate f s (formValues w);
     errors := errors w;
     effectItem := effectItem w |}.

Definition pickDate (f : DateInput) (date : JsDate.Date)
    (keyboardInputValue : option string) (w : Modal) : Modal :=
  datePickerOnChange (date_onChange f) date keyboardInputValue w.

(** The values a change event hands to [field.onChange], in order. *)
Definition committed (date : JsDate.Date) (keyboardInputValue : option string)
  : list string :=
  datePickerOnChange (fun s l => l ++ [s]) date keyboardInputValue [].

(** ** The life of the modal *)

Definition isOpen (w : Modal) : bool := open (modal (store w)).

(** The modal is opened while it is closed, on no item or on an item
    that satisfies [P]; its controls are used while it is open. *)
Inductive step (P : FormData -> Prop) : Modal -> Modal -> Prop :=
| step_open (p : option FormData) (w : Modal) :
    isOpen w = false -> (forall i, p = Some i -> P i) ->
    step P w (openModal p w)
| step_text (f : TextInput) (s : string) (w : Modal) :
    isOpen w = true -> step P w (typeText f s w)
| step_date (f : DateInput) (d : JsDate.Date) (k : option string) (w : Modal) :
    isOpen w = true -> step P w (pickDate f d k w)
| step_submit (w : Modal) :
    isOpen w = true -> step P w (clickSubmit w)
| step_close (w : Modal) :
    isOpen w = true -> step P w (clickClose w).

Inductive reachable (P : FormData -> Prop) : Modal -> Prop :=
| reach_mount : reachable P mount
| reach_step (w w' : Modal) :
    reachable P w -> step P w w' -> reachable P w'.

Definition any_item (i : FormData) : Prop := True.

(** The items of the store carry an identifier. *)
Definition has_id (i : FormData) : Prop := id i <> None.

(** The add and edit actions, and the actions dispatched between two
    states. *)
Definition is_item_action (a : Action) : bool :=
  match a with
  | addItem _ _ | editItem _ _ => true
  | setModalState _ _ => false
  end.

Definition new_actions (before after : Modal) : list Action :=
  skipn (List.length (dispatched (store before))) (dispatched (store after)).

(** The invariant of the reachable states: the effect has run for the
    current item, and a closed modal holds the default values and no
    payload. *)
Definition modal_inv (w : Modal) : Prop :=
  effectItem w = item w
  /\ (isOpen w = false -> formValues w = defaultState /\ item w = None).

(** The add-or-edit action a click on the footer button dispatches. *)
Definition submitted_action (w : Modal) : option Action :=
  find is_item_action (new_actions w (clickSubmit w)).

Definition closed_state : ModalState := {| open := false; payload := None |}.

(** What a close leaves behind: the form at its defaults, the modal
    closed in the store by a dispatch, and defaults again on the next
    open without a payload. *)
Definition closed_and_reset (before after : Modal) : Prop :=
  formValues after = defaultState
  /\ errors after = []
  /\ isOpen after = false
  /\ (exists l, new_actions before after
                = l ++ [setModalState modal_key closed_state])
  /\ formValues (openModal None after) = defaultState.

End WorkModal.

(* ================================================================== *)
(** * The embedded editor                                               *)
(* ================================================================== *)

(** The editor engine is an external library.  Its state is modelled as
    one text block: a sequence of characters, each with the [href] of the
    link mark it carries, if any; a text selection [from, to); the stored
    marks of an empty selection; and the undo history.  Positions count
    characters from 0.  Only the link mark is modelled, link marks are
    compared by type when a mark range is sought, display text is plain
    text, and an empty text given for a range deletes the range, as
    [tr.insertText] does.  The link mark is not inclusive
    ([Link.extend({ inclusive: false })]). *)

Module TipTap.

Record Cell : Type := mkCell {
  ch : ascii;
  link : option string;
}.

Definition Doc : Type := list Cell.

Definition Snapshot : Type := (Doc * (nat * nat))%type.

Record Editor : Type := mkEditor {
  doc : Doc;
  from : nat;
  to : nat;
  storedMarks : option (option string);
  done : list Snapshot;
  undone : list Snapshot;
}.

(** A transaction under construction by a command chain. *)
Record Tr : Type := mkTr {
  tr_doc : Doc;
  tr_from : nat;
  tr_to : nat;
  tr_storedMarks : option (option string);
  tr_docChanged : bool;
}.

Definition Command : Type := Tr -> Tr.

Definition has_link (c : Cell) : bool :=
  match link c with Some _ => true | None => false end.

Definition linked (c : Cell) : Prop := has_link c = true.

Definition cells (m : option string) (s : string) : list Cell :=
  map (fun a => mkCell a m) (list_ascii_of_string s).

Definition set_link (m : option string) (c : Cell) : Cell :=
  mkCell (ch c) m.

Definition slice (a b : nat) (d : Doc) : list Cell :=
  firstn (b - a) (skipn a d).

(** [doc.textBetween(from, to, " ")]. *)
Definition textBetween (d : Doc) (a b : nat) : string :=
  string_of_list_ascii (map ch (slice a b d)).

Definition link_eqb (x y : option string) : bool :=
  match x, y with
  | Some h, Some k => String.eqb h k
  | None, None => true
  | _, _ => false
  end.

Definition link_at (d : Doc) (i : nat) : option string :=
  match nth_error d i with Some c => link c | None => None end.

(** The marks at a cursor: those of the text around it; a link mark only
    when the characters on both sides carry the same one. *)
Definition cursor_link (d : Doc) (p : nat) : option string :=
  match p with
  | O => None
  | S q =>
      match link_at d q, link_at d p with
      | Some h, Some k => if String.eqb h k then Some h else None
      | _, _ => None
      end
  end.

(** The marks a replacement of [a, b) inherits: those after [a], a link
    mark only when it is also present after [b]. *)
Definition across_link (d : Doc) (a b : nat) : option string :=
  match link_at d a, link_at d b with
  | Some h, Some k => if String.eqb h k then Some h else None
  | _, _ => None
  end.

(** The first link mark among the characters of [a, b). *)
Fixpoint first_link (l : list Cell) : option string :=
  match l with
  | [] => None
  | c :: l' =>
      match link c with Some h => Some h | None => first_link l' end
  end.

(** [editor.getAttributes("link").href]. *)
Definition getAttributes_link_href (e : Editor) : option string :=
  if from e =? to e then
    match storedMarks e with
    | Some (Some h) => Some h
    | _ => cursor_link (doc e) (from e)
    end
  else first_link (slice (from e) (to e) (doc e)).

(** The number of linked characters at the head of a list. *)
Fixpoint run_len (l : list Cell) : nat :=
  match l with
  | c :: l' => if has_link c then S (run_len l') else 0
  | [] => 0
  end.

(** The range of the link mark around a position: the run of linked
    characters after it, and before it. *)
Definition getMarkRange (d : Doc) (p : nat) : option (nat * nat) :=
  let after := run_len (skipn p d) in
  let before := run_len (rev (firstn p d)) in
  if after + before =? 0 then None else Some (p - before, p + after).

(** ** Commands *)

Definition focus : Command := fun t => t.

Definition extendMarkRange_link : Command := fun t =>
  match getMarkRange (tr_doc t) (tr_from t) with
  | Some (a, b) =>
      if (a <=? tr_from t) && (tr_to t <=? b) then
        {| tr_doc := tr_doc t; tr_from := a; tr_to := b;
           tr_storedMarks := None; tr_docChanged := tr_docChanged t |}
      else t
  | None => t
  end.

(** The link marks of [a, b) set to [m]. *)
Definition mark_range (m : option string) (a b : nat) (d : Doc) : Doc :=
  firstn a d ++ map (set_link m) (slice a b d) ++ skipn b d.

Definition differs (m : option string) (l : list Cell) : bool :=
  existsb (fun c => negb (link_eqb (link c) m)) l.

(** [unsetLink()], that is [unsetMark("link", { extendEmptyMarkRange: true })]. *)
Definition unsetLink : Command := fun t =>
  let '(a, b) :=
    if tr_from t =? tr_to t then
      match getMarkRange (tr_doc t) (tr_from t) with
      | Some r => r
      | None => (tr_from t, tr_to t)
      end
    else (tr_from t, tr_to t) in
  {| tr_doc := mark_range None a b (tr_doc t);
     tr_from := tr_from t; tr_to := tr_to t;
     tr_storedMarks := Some None;       (* [tr.removeStoredMark(type)] *)
     tr_docChanged :=
       tr_docChanged t || differs None (slice a b (tr_doc t)) |}.

(** [setLink({ href })], that is [setMark("link", { href })]. *)
Definition setLink_href (href : string) : Command := fun t =>
  if tr_from t =? tr_to t then
    {| tr_doc := tr_doc t; tr_from := tr_from t; tr_to := tr_to t;
       tr_storedMarks := Some (Some href);
       tr_docChanged := tr_docChanged t |}
  else
    {| tr_doc := mark_range (Some href) (tr_from t) (tr_to t) (tr_doc t);
       tr_from := tr_from t; tr_to := tr_to t;
       tr_storedMarks := tr_storedMarks t;
       tr_docChanged :=
         tr_docChanged t
         || differs (Some href) (slice (tr_from t) (tr_to t) (tr_doc t)) |}.

(** [setTextSelection({ from, to })], clamped to the document. *)
Definition setTextSelection (a b : nat) : Command := fun t =>
  {| tr_doc := tr_doc t;
     tr_from := Nat.min a (List.length (tr_doc t));
     tr_to := Nat.min b (List.length (tr_doc t));
     tr_storedMarks := None;
     tr_docChanged := tr_docChanged t |}.

(** The marks of inserted text: the stored marks, or else those of the
    place. *)
Definition insertion_link (t : Tr) (a b : nat) : option string :=
  match tr_storedMarks t with
  | Some m => m
  | None =>
      if a =? b then cursor_link (tr_doc t) a
      else across_link (tr_doc t) a b
  end.

(** [tr.insertText(text, a, b)] and the selection put at the end of the
    insertion; an empty text deletes the range. *)
Definition insertText_at (a b : nat) (text : string) (t : Tr) : Tr :=
  match text with
  | EmptyString =>
      if a <? b then
        {| tr_doc := firstn a (tr_doc t) ++ skipn b (tr_doc t);
           tr_from := a; tr_to := a;
           tr_storedMarks := None; tr_docChanged := true |}
      else t
  | String _ _ =>
      {| tr_doc :=
           firstn a (tr_doc t)
             ++ cells (insertion_link t a b) text
             ++ skipn b (tr_doc t);
         tr_from := a + String.length text;
         tr_to := a + String.length text;
         tr_storedMarks := None; tr_docChanged := true |}
  end.

(** [insertContentAt({ from, to }, text)]. *)
Definition insertContentAt (a b : nat) (text : string) : Command :=
  insertText_at a b text.

(** [command(({ tr }) => { tr.insertText(text); return true })]: the
    text replaces the selection. *)
Definition insertText (text : string) : Command := fun t =>
  insertText_at (tr_from t) (tr_to t) text t.

(** [editor.chain() ... .run()]: the commands build one transaction on
    the current state; [run] dispatches it, and a changed document puts
    the previous state on the undo history. *)
Definition begin (e : Editor) : Tr :=
  {| tr_doc := doc e; tr_from := from e; tr_to := to e;
     tr_storedMarks := storedMarks e; tr_docChanged := false |}.

Definition run (e : Editor) (t : Tr) : Editor :=
  {| doc := tr_doc t;
     from := tr_from t;
     to := tr_to t;
     storedMarks := if tr_from t =? tr_to t then tr_storedMarks t else None;
     done := if tr_docChanged t
             then (doc e, (from e, to e)) :: done e else done e;
     undone := if tr_docChanged t then [] else undone e |}.

Definition chain (e : Editor) (cmds : list Command) : Editor :=
  run e (fold_left (fun t c => c t) cmds (begin e)).

(** The [undo] and [redo] commands of the history; [None] when there is
    nothing to revert to. *)
Definition undo (e : Editor) : option Editor :=
  match done e with
  | [] => None
  | (d, (a, b)) :: rest =>
      Some {| doc := d; from := a; to := b; storedMarks := None;
              done := rest;
              undone := (doc e, (from e, to e)) :: undone e |}
  end.

Definition redo (e : Editor) : option Editor :=
  match undone e with
  | [] => None
  | (d, (a, b)) :: rest =>
      Some {| doc := d; from := a; to := b; storedMarks := None;
              done := (doc e, (from e, to e)) :: done e;
              undone := rest |}
  end.

(** [editor.can().cmd()]: would the command apply? *)
Definition can (cmd : Editor -> option Editor) (e : Editor) : bool :=
  match cmd e with Some _ => true | None => false end.

(** A new editor on some content. *)
Definition useEditor (d : Doc) : Editor :=
  {| doc := d; from := 0; to := 0; storedMarks := None;
     done := []; undone := [] |}.

Definition well_formed (e : Editor) : Prop :=
  from e <= to e /\ to e <= List.length (doc e)
  /\ (from e < to e -> storedMarks e = None).

End TipTap.

(* ================================================================== *)
(** * The rich input: link sub-form and toolbar                         *)
(* ================================================================== *)

Module RichInput.

Import TipTap.

Record InsertLinkFormValues : Type := mkLinkValues {
  url : string;
  displayText : string;
}.

(** JavaScript truthiness of [getAttributes("link").href]. *)
Definition truthy (o : option string) : bool :=
  match o with
  | Some (String _ _) => true
  | _ => false
  end.

(** [previousUrl || "https://"]. *)
Definition or_default (o : option string) (d : string) : string :=
  match o with
  | Some (String a s) => String a s
  | _ => d
  end.

(** The render of [InsertLinkForm]: the editor after it, and the
    [defaultValues] given to [useForm]. *)
Definition InsertLinkForm (editor : Editor) : Editor * InsertLinkFormValues :=
  let previousUrl := getAttributes_link_href editor in
  let editor1 :=
    if truthy previousUrl then chain editor [extendMarkRange_link]
    else editor in
  let displayText := textBetween (doc editor1) (from editor1) (to editor1) in
  (editor1,
   {| url := or_default previousUrl "https://";
      displayText := displayText |}).

(** [Toolbar]'s [setLink(url, displayText)]. *)
Definition setLink (url displayText : string) (editor : Editor) : Editor :=
  let from := from editor in
  let to := to editor in
  if String.eqb url EmptyString then
    chain editor
      [ focus; extendMarkRange_link; unsetLink;
        insertContentAt from to displayText ]
  else if from =? to then
    chain editor
      [ focus; extendMarkRange_link; setLink_href url;
        insertText displayText ]
  else
    chain editor
      [ insertContentAt from to displayText;
        setTextSelection from (from + String.length displayText);
        extendMarkRange_link; setLink_href url; focus ].

(** The link sub-form submitted with the given values:
    [onInsert={(props) => setLink(props.url, props.displayText)}]. *)
Definition onInsert (values : InsertLinkFormValues) (editor : Editor)
  : Editor :=
  setLink (url values) (displayText values) editor.

(** The link popover opened on an editor state and its form submitted
    with [values]. *)
Definition submitLinkForm (values : InsertLinkFormValues) (editor : Editor)
  : Editor :=
  onInsert values (fst (InsertLinkForm editor)).

(** A link mark covers the selection: the form finds a URL on it, and
    the range [a, b) of the link mark around the start of the selection
    holds the whole selection. *)
Definition link_covers (e : Editor) (a b : nat) : Prop :=
  truthy (getAttributes_link_href e) = true
  /\ getMarkRange (doc e) (from e) = Some (a, b)
  /\ to e <= b.

(** The document in which the selection of [e] is replaced by [text]
    and the link to [href] is on exactly the replacement. *)
Definition replaced_and_linked (e : Editor) (href text : string) : Doc :=
  firstn (from e) (doc e) ++ cells (Some href) text ++ skipn (to e) (doc e).

(** What a render of the toolbar shows of the history buttons. *)
Record HistoryButtons : Type := mkHistoryButtons {
  undo_disabled : bool;
  redo_disabled : bool;
}.

(** [disabled={!editor.can().undo()}], [disabled={!editor.can().redo()}]. *)
Definition Toolbar (editor : Editor) : HistoryButtons :=
  {| undo_disabled := negb (can undo editor);
     redo_disabled := negb (can redo editor) |}.

(** [onClick={() => editor.chain().focus().undo().run()}]: a disabled
    button does not react. *)
Definition clickUndo (editor : Editor) : Editor :=
  if undo_disabled (Toolbar editor) then editor
  else match undo editor with Some e => e | None => editor end.

End RichInput.

(* ================================================================== *)
(** * Concrete states                                                   *)
(* ================================================================== *)

Module Examples.

Import WorkModal.

Local Open Scope string_scope.

(** A stored work item, and one that carries no identifier. *)
Definition stored_item : FormData :=
  {| id := Some "6f1c"; name := "Acme"; position := "Engineer";
     date := {| start := "2020-01-01T00:00:00.000Z"; end_ := "" |};
     url := "https://acme.test"; summary := "Built things" |}.

Definition item_without_id : FormData :=
  {| id := None; name := "Acme"; position := "Engineer";
     date := {| start := ""; end_ := "" |};
     url := "example.com"; summary := "" |}.

(** The modal opened for a new item and filled in. *)
Definition add_filled : Modal :=
  typeText i_position "Engineer"
    (typeText i_name "Acme" (openModal None mount)).

(** The modal opened on a stored item, and on one without identifier. *)
Definition edit_opened : Modal := openModal (Some stored_item) mount.
Definition edit_without_id : Modal := openModal (Some item_without_id) mount.

Import TipTap RichInput.

Definition editor_on (d : Doc) (a b : nat) : Editor :=
  {| doc := d; from := a; to := b; storedMarks := None;
     done := []; undone := [] |}.

(** The word [Example] selected in plain text. *)
Definition example_selected : Editor :=
  editor_on (cells None "Example") 0 7.

(** The cursor inside the link of [go here now]. *)
Definition cursor_in_link : Editor :=
  editor_on (cells None "go " ++ cells (Some "https://a.test") "here"
               ++ cells None " now")%list 5 5.

(** The plain text [ab] selected, right before the link [cd]. *)
Definition before_link : Editor :=
  editor_on (cells None "ab" ++ cells (Some "https://a.test") "cd")%list 0 2.

(** A selection from inside one link to inside a later one with the
    same href: [b], [cd], [e] of [ab|cd|ef]. *)
Definition across_links : Editor :=
  editor_on (cells (Some "https://a.test") "ab" ++ cells None "cd"
               ++ cells (Some "https://a.test") "ef")%list 1 5.

End Examples.

(* ================================================================== *)
(** * Descriptions used in further statements                           *)
(* ================================================================== *)

Module Described.

Import Regex.

(** The character before the position reached after reading [x] from a
    position whose previous character is [prev]. *)
Definition last_seen (prev : option ascii) (x : list ascii) : option ascii :=
  fold_left (fun _ a => Some a) x prev.

(** A number of repetitions allowed by an upper bound. *)
Definition within (hi : option nat) (n : nat) : Prop :=
  match hi with Some h => n <= h | None => True end.

(** A word boundary between two neighbouring characters. *)
Definition boundary (prev next : option ascii) : bool :=
  xorb (is_word_at prev) (is_word_at next).

(** What the pattern of the [url] key looks for, anywhere in the string:
    a character of the first class, a dot, one to six characters of the
    second class, and a word boundary after them. *)
Definition url_shape (l : list ascii) : Prop :=
  exists pre a tld post,
    l = pre ++ a :: "."%char :: tld ++ post
    /\ WorkModal.url_head a = true
    /\ 1 <= List.length tld <= 6
    /\ forallb WorkModal.url_tld tld = true
    /\ boundary (last_seen None tld) (hd_error post) = true.

(** After every dot of the string come at least seven letters or
    digits. *)
Definition long_labels (l : list ascii) : Prop :=
  forall pre rest,
    l = pre ++ "."%char :: rest ->
    exists w rest',
      rest = w ++ rest' /\ List.length w = 7
      /\ forallb is_alnum w = true.

(** The same, as a check. *)
Fixpoint long_labels_b (l : list ascii) : bool :=
  match l with
  | [] => true
  | a :: l' =>
      (negb (Ascii.eqb a ".")
       || (forallb is_alnum (firstn 7 l') && (7 <=? List.length l')))
      && long_labels_b l'
  end.

(** The record an add or edit action carries. *)
Definition item_value (a : WorkModal.Action) : option WorkModal.FormData :=
  match a with
  | WorkModal.addItem _ v | WorkModal.editItem _ v => Some v
  | WorkModal.setModalState _ _ => None
  end.

(** The selection of a transaction lies in its document. *)
Definition in_bounds (t : TipTap.Tr) : Prop :=
  TipTap.tr_from t <= TipTap.tr_to t
  /\ TipTap.tr_to t <= List.length (TipTap.tr_doc t).

(** The characters of a document, without their marks. *)
Definition text_of (d : TipTap.Doc) : list ascii := map TipTap.ch d.

(** Characters that carry no link mark. *)
Definition plain (l : list TipTap.Cell) : Prop :=
  Forall (fun c => TipTap.link c = None) l.

(** A form with an empty name, and one with an empty position. *)
Definition name_missing : WorkModal.Modal :=
  WorkModal.typeText WorkModal.i_position "Engineer"
    (WorkModal.openModal None WorkModal.mount).

(** The cursor in plain text, away from any link. *)
Definition cursor_in_plain : TipTap.Editor :=
  Examples.editor_on (TipTap.cells None "see docs") 4 4.

(** The replacement of the selection by [text] touches a link: a
    non-empty text inherits a link mark, the first selected character
    and the character after the selection carrying a link of the same
    href; an empty text leaves a linked character next to the place of
    the deleted selection. *)
Definition touches_link (e : TipTap.Editor) (text : string) : bool :=
  match text with
  | EmptyString =>
      negb (TipTap.run_len (rev (firstn (TipTap.from e) (TipTap.doc e)))
            + TipTap.run_len (skipn (TipTap.to e) (TipTap.doc e)) =? 0)
  | String _ _ =>
      match TipTap.across_link (TipTap.doc e) (TipTap.from e) (TipTap.to e)
      with
      | Some _ => true
      | None => false
      end
  end.

(** The document in which the selection of [e] is replaced by [text]
    and the link to [href] is on the replacement and on the linked
    characters right before and right after the selection. *)
Definition widened_and_linked (e : TipTap.Editor) (href text : string)
  : TipTap.Doc :=
  let d := TipTap.doc e in
  let before := TipTap.run_len (rev (firstn (TipTap.from e) d)) in
  let after := TipTap.run_len (skipn (TipTap.to e) d) in
  firstn (TipTap.from e - before) d
    ++ map (TipTap.set_link (Some href))
         (TipTap.slice (TipTap.from e - before) (TipTap.from e) d)
    ++ TipTap.cells (Some href) text
    ++ map (TipTap.set_link (Some href))
         (TipTap.slice (TipTap.to e) (TipTap.to e + after) d)
    ++ skipn (TipTap.to e + after) d.


End Described.

(* ================================================================== *)
(** * Properties of the Work modal                                      *)
(* ================================================================== *)

Section WorkModalFacts.

Import Regex WorkModal Examples.

Local Open Scope string_scope.

Lemma is_empty_string_true (s : string) :
  is_empty_string s = true <-> s = "".
Proof. destruct s; simpl; split; congruence. Qed.

Lemma joi_string_ok (s : string) : joi_string s = [] <-> s <> "".
Proof.
  unfold joi_string. destruct s; simpl; split; congruence.
Qed.

Lemma joi_url_ok (s : string) :
  joi_string_pattern_allow_empty url_pattern s = []
  <-> s = "" \/ test url_pattern s = true.
Proof.
  unfold joi_string_pattern_allow_empty.
  destruct s as [|a s]; simpl is_empty_string; cbv iota.
  - split; auto.
  - destruct (test url_pattern (String a s)); split; intro H; auto;
      try discriminate.
    destruct H; discriminate.
Qed.

Lemma at_field_nil (f : Field) (es : list JoiError) :
  at_field f es = [] <-> es = [].
Proof. destruct es; simpl; split; congruence. Qed.

(** The schema passes exactly on the records the field rules accept. *)
Lemma schema_ok_iff (v : FormData) :
  schema v = []
  <-> id v <> Some ""
      /\ name v <> ""
      /\ position v <> ""
      /\ (url v = "" \/ test url_pattern (url v) = true).
Proof.
  unfold schema, joi_string_allow_empty. simpl.
  rewrite !app_nil_r.
  split.
  - intro H.
    apply app_eq_nil in H as [Hid H].
    apply app_eq_nil in H as [Hn H].
    apply app_eq_nil in H as [Hp Hu].
    apply at_field_nil in Hid, Hn, Hp, Hu.
    apply joi_string_ok in Hn, Hp. apply joi_url_ok in Hu.
    repeat split; auto.
    destruct (id v) as [i|]; [|congruence].
    apply joi_string_ok in Hid. congruence.
  - intros (Hid & Hn & Hp & Hu).
    apply joi_string_ok in Hn, Hp. apply joi_url_ok in Hu.
    rewrite Hn, Hp, Hu. simpl.
    destruct (id v) as [i|]; [|reflexivity].
    assert (Hi : joi_string i = []) by (apply joi_string_ok; congruence).
    now rewrite Hi.
Qed.

Lemma item_eqb_refl (i : option FormData) : item_eqb i i = true.
Proof.
  destruct i as [x|]; simpl; [|reflexivity].
  destruct (FormData_eq_dec x x); congruence.
Qed.

Lemma item_eqb_eq (i j : option FormData) : item_eqb i j = true -> i = j.
Proof.
  destruct i as [x|], j as [y|]; simpl; try congruence.
  destruct (FormData_eq_dec x y); congruence.
Qed.

Lemma store_useEffect (w : Modal) : store (useEffect w) = store w.
Proof.
  unfold useEffect.
  destruct (item_eqb (item w) (effectItem w)); [reflexivity|].
  destruct (item w); reflexivity.
Qed.

Lemma skipn_length_app {A : Type} (l l' : list A) :
  skipn (List.length l) (l ++ l') = l'.
Proof. induction l; simpl; auto. Qed.

(** What a submit does to the store: nothing on a validation error, the
    add-or-edit action and then the closing on success. *)
Lemma store_clickSubmit (w : Modal) :
  store (clickSubmit w)
  = match schema (formValues w) with
    | [] =>
        reducer
          (reducer (store w)
             (if isEditMode w then editItem items_path (formValues w)
              else addItem items_path (formValues w)))
          (setModalState modal_key closed_state)
    | _ :: _ => store w
    end.
Proof.
  unfold clickSubmit. rewrite store_useEffect. unfold handleSubmit.
  destruct (schema (formValues w)); [|reflexivity].
  unfold onSubmit, handleClose, isEditMode, item. simpl.
  destruct (payload (modal (store w))); reflexivity.
Qed.

Lemma new_actions_clickSubmit (w : Modal) :
  new_actions w (clickSubmit w)
  = match schema (formValues w) with
    | [] =>
        [ if isEditMode w then editItem items_path (formValues w)
          else addItem items_path (formValues w);
          setModalState modal_key closed_state ]
    | _ :: _ => []
    end.
Proof.
  unfold new_actions. rewrite store_clickSubmit.
  destruct (schema (formValues w)).
  - simpl. rewrite <- app_assoc. apply skipn_length_app.
  - rewrite <- (app_nil_r (dispatched (store w))) at 2.
    apply skipn_length_app.
Qed.

(** C1.  A click on the submit button dispatches an add or edit action
    only when the submitted record passes the whole field schema (name
    and position not empty, url empty or matching the pattern, an
    identifier not empty when there is one), and the action then carries
    that record; when the schema reports an error for any field, nothing
    is dispatched: the store is unchanged, and the errors are the ones
    kept for display. *)
Theorem C1_submit_gated_by_schema (w : Modal) :
  (forall a, In a (new_actions w (clickSubmit w)) ->
     is_item_action a = true ->
     schema (formValues w) = []
     /\ name (formValues w) <> ""
     /\ position (formValues w) <> ""
     /\ (url (formValues w) = ""
         \/ test url_pattern (url (formValues w)) = true)
     /\ (a = addItem items_path (formValues w)
         \/ a = editItem items_path (formValues w)))
  /\ (schema (formValues w) <> [] ->
      store (clickSubmit w) = store w
      /\ new_actions w (clickSubmit w) = []
      /\ errors (handleSubmit onSubmit w) = schema (formValues w)).
Proof.
  split.
  - intros a Hin Hitem.
    rewrite new_actions_clickSubmit in Hin.
    destruct (schema (formValues w)) eqn:Hs; [|destruct Hin].
    pose proof (proj1 (schema_ok_iff _) Hs) as (_ & Hn & Hp & Hu).
    repeat split; auto.
    destruct Hin as [<-|[<-|[]]].
    + destruct (isEditMode w); auto.
    + discriminate.
  - intro Hbad.
    rewrite store_clickSubmit, new_actions_clickSubmit.
    unfold handleSubmit.
    destruct (schema (formValues w)); [congruence|auto].
Qed.

(** C2, as stated, fails: the modal opened on an item without an
    identifier submits a valid record whose identifier is absent, and
    the edit action is dispatched, not the add action. *)
Lemma C2_counterexample :
  let w := edit_without_id in
  schema (formValues w) = []
  /\ id (formValues w) = None
  /\ submitted_action w = Some (editItem items_path (formValues w)).
Proof. vm_compute. auto. Qed.

(** ** Closing and opening *)

Lemma useEffect_synced (w : Modal) :
  effectItem w = item w -> useEffect w = w.
Proof.
  intro H. unfold useEffect. now rewrite H, item_eqb_refl.
Qed.

Lemma useEffect_no_item (w : Modal) :
  item w = None ->
  formValues (useEffect w) = formValues w
  /\ errors (useEffect w) = errors w
  /\ effectItem (useEffect w) = None.
Proof.
  intro H. unfold useEffect. rewrite H.
  destruct (item_eqb None (effectItem w)) eqn:E; simpl; auto.
  apply item_eqb_eq in E. auto.
Qed.

Lemma useEffect_item (w : Modal) (i : FormData) :
  item w = Some i -> effectItem w = None ->
  formValues (useEffect w) = i /\ effectItem (useEffect w) = Some i.
Proof.
  intros H E. unfold useEffect. rewrite H, E. simpl. auto.
Qed.

Lemma modalReducer_set (m s : ModalState) :
  modalReducer m (setModalState modal_key s) = s.
Proof. unfold modalReducer. now rewrite String.eqb_refl. Qed.

Lemma item_handleClose (w : Modal) : item (handleClose w) = None.
Proof.
  unfold item, handleClose. cbn -[modalReducer].
  now rewrite modalReducer_set.
Qed.

Lemma item_openModal_dispatch (p : option FormData) (w : Modal) :
  item (dispatch (setModalState modal_key {| open := true; payload := p |}) w)
  = p.
Proof. unfold item. cbn -[modalReducer]. now rewrite modalReducer_set. Qed.

Lemma close_facts (w : Modal) :
  formValues (clickClose w) = defaultState
  /\ errors (clickClose w) = []
  /\ effectItem (clickClose w) = None
  /\ store (clickClose w)
     = reducer (store w) (setModalState modal_key closed_state)
  /\ formValues (openModal None (clickClose w)) = defaultState.
Proof.
  unfold clickClose.
  destruct (useEffect_no_item _ (item_handleClose w)) as (Hf & He & Hi).
  rewrite Hf, He, Hi, store_useEffect.
  repeat split; auto.
  unfold openModal.
  match goal with |- formValues (useEffect ?x) = _ =>
    destruct (useEffect_no_item x (item_openModal_dispatch None _))
      as (Hf' & _)
  end.
  rewrite Hf'. simpl. exact Hf.
Qed.

Lemma isOpen_closed (w : Modal) (s : Store) :
  store w = reducer s (setModalState modal_key closed_state) ->
  isOpen w = false /\ item w = None.
Proof.
  intro H. unfold isOpen, item. rewrite H. cbn -[modalReducer].
  now rewrite modalReducer_set.
Qed.

Lemma clickSubmit_valid (w : Modal) :
  schema (formValues w) = [] ->
  clickSubmit w
  = clickClose
      (dispatch (if isEditMode w then editItem items_path (formValues w)
                 else addItem items_path (formValues w))
         {| store := store w; formValues := formValues w;
            errors := []; effectItem := effectItem w |}).
Proof.
  intro Hs. unfold clickSubmit, clickClose, handleSubmit, onSubmit.
  rewrite Hs. unfold isEditMode, item. simpl.
  destruct (payload (modal (store w))); reflexivity.
Qed.

(** C3.  Closing the modal, by the close handler or by a submit that
    passes the schema, leaves every form field at its declared default
    (all of them empty strings, no identifier), dispatches the closed
    state of the modal to the store, and an open without a payload
    after it shows the defaults. *)
Theorem C3_close_resets_form (w : Modal) :
  closed_and_reset w (clickClose w)
  /\ (schema (formValues w) = [] -> closed_and_reset w (clickSubmit w))
  /\ defaultState
     = {| id := None; name := ""; position := "";
          date := {| start := ""; end_ := "" |}; url := ""; summary := "" |}.
Proof.
  split; [|split; [|reflexivity]].
  - destruct (close_facts w) as (Hf & He & _ & Hst & Ho).
    destruct (isOpen_closed _ _ Hst) as [Hopen _].
    repeat split; auto.
    exists []. unfold new_actions. rewrite Hst. simpl.
    apply skipn_length_app.
  - intro Hs. unfold closed_and_reset.
    rewrite new_actions_clickSubmit, Hs, (clickSubmit_valid w Hs).
    match goal with |- context [clickClose ?x] => set (w1 := x) end.
    destruct (close_facts w1) as (Hf & He & _ & Hst & Ho).
    destruct (isOpen_closed _ _ Hst) as [Hopen _].
    repeat split; auto.
    eexists [_]. reflexivity.
Qed.

(** ** Reachable states *)

Lemma datePickerOnChange_keeps {S A : Type} (g : S -> A)
    (on : string -> S -> S) (d : JsDate.Date) (k : option string) (st : S) :
  (forall s x, g (on s x) = g x) ->
  g (datePickerOnChange on d k st) = g st.
Proof.
  intro H. unfold datePickerOnChange.
  destruct d as [t|]; simpl;
    destruct (isEmpty_input k); rewrite ?H; reflexivity.
Qed.

Lemma modal_inv_closed (w : Modal) : modal_inv (clickClose w).
Proof.
  destruct (close_facts w) as (Hf & He & Hi & Hst & Ho).
  destruct (isOpen_closed _ _ Hst) as [Hopen Hitem].
  split; [congruence|auto].
Qed.

Lemma reachable_inv (P : FormData -> Prop) (w : Modal) :
  reachable P w -> modal_inv w.
Proof.
  induction 1 as [|w w' Hr IH Hstep].
  - split; [reflexivity|]. intros _. split; reflexivity.
  - destruct IH as [Heff Hclosed].
    destruct Hstep as [p w Hc _|f s w Ho|f d k w Ho|w Ho|w Ho].
    + (* open *)
      destruct (Hclosed Hc) as [Hf Hi].
      assert (Hopen : isOpen (openModal p w) = true).
      { unfold isOpen, openModal. rewrite store_useEffect.
        cbn -[modalReducer]. now rewrite modalReducer_set. }
      split; [|congruence].
      unfold openModal.
      match goal with |- effectItem (useEffect ?x) = _ => set (w1 := x) end.
      assert (Hi1 : item w1 = p) by apply item_openModal_dispatch.
      assert (He1 : effectItem w1 = None) by (simpl; congruence).
      assert (Hs : item (useEffect w1) = item w1)
        by (unfold item; now rewrite store_useEffect).
      rewrite Hs, Hi1.
      destruct p as [i|].
      * now destruct (useEffect_item w1 i Hi1 He1).
      * now destruct (useEffect_no_item w1 Hi1) as (_ & _ & ?).
    + (* text *)
      split; [exact Heff|].
      unfold isOpen in *. simpl. congruence.
    + (* date *)
      unfold pickDate.
      assert (Hst : store (datePickerOnChange (date_onChange f) d k w)
                    = store w)
        by (apply datePickerOnChange_keeps; reflexivity).
      assert (He : effectItem (datePickerOnChange (date_onChange f) d k w)
                   = effectItem w)
        by (apply datePickerOnChange_keeps; reflexivity).
      split.
      * unfold item. rewrite He, Hst. exact Heff.
      * unfold isOpen in *. rewrite Hst. congruence.
    + (* submit *)
      destruct (schema (formValues w)) as [|e es] eqn:Hs.
      * rewrite (clickSubmit_valid w Hs). apply modal_inv_closed.
      * unfold clickSubmit, handleSubmit. rewrite Hs.
        rewrite useEffect_synced by exact Heff.
        split; [exact Heff|].
        unfold isOpen in *. simpl. congruence.
    + (* close *)
      apply modal_inv_closed.
Qed.

Lemma openModal_from_closed (w : Modal) (p : option FormData) :
  modal_inv w -> isOpen w = false ->
  formValues (openModal p w)
  = match p with Some record => record | None => defaultState end
  /\ item (openModal p w) = p.
Proof.
  intros [Heff Hclosed] Hc.
  destruct (Hclosed Hc) as [Hf Hi].
  unfold openModal.
  match goal with |- formValues (useEffect ?x) = _ /\ _ => set (w1 := x) end.
  assert (Hi1 : item w1 = p) by apply item_openModal_dispatch.
  assert (He1 : effectItem w1 = None) by (simpl; congruence).
  assert (Hs : item (useEffect w1) = item w1)
    by (unfold item; now rewrite store_useEffect).
  rewrite Hs. split; [|exact Hi1].
  destruct p as [i|].
  - now destruct (useEffect_item w1 i Hi1 He1).
  - destruct (useEffect_no_item w1 Hi1) as (Hf1 & _). now rewrite Hf1.
Qed.

(** C4.  When the modal opens (from its closed state, in any reachable
    state of the component) with an existing record as payload, the
    form's values are that record's values; when it opens without a
    payload, they are the declared defaults. *)
Theorem C4_open_populates_form (w : Modal) (p : option FormData) :
  reachable any_item w ->
  isOpen w = false ->
  formValues (openModal p w)
  = match p with Some record => record | None => defaultState end.
Proof.
  intros Hr Hc.
  exact (proj1 (openModal_from_closed w p (reachable_inv _ w Hr) Hc)).
Qed.

Lemma C4_open_populates_form_witness :
  formValues (openModal (Some stored_item) mount) = stored_item
  /\ formValues (openModal None mount) = defaultState.
Proof.
  split.
  - exact (C4_open_populates_form mount (Some stored_item)
             (reach_mount any_item) eq_refl).
  - exact (C4_open_populates_form mount None (reach_mount any_item) eq_refl).
Defined.

(** ** Identifiers *)

Lemma id_setText (f : TextInput) (s : string) (v : FormData) :
  id (setText f s v) = id v.
Proof. destruct f; reflexivity. Qed.

Lemma id_setDate (f : DateInput) (s : string) (v : FormData) :
  id (setDate f s v) = id v.
Proof. destruct f; reflexivity. Qed.

(** When the modal is only ever opened on items that carry an
    identifier, the form holds an identifier exactly when the payload
    holds an item. *)
Lemma reachable_id (w : Modal) :
  reachable has_id w -> (id (formValues w) = None <-> item w = None).
Proof.
  induction 1 as [|w w' Hr IH Hstep].
  - split; reflexivity.
  - pose proof (reachable_inv _ w Hr) as Hinv.
    destruct Hstep as [p w Hc Hp|f s w Ho|f d k w Ho|w Ho|w Ho].
    + destruct (openModal_from_closed w p Hinv Hc) as [Hf Hi].
      rewrite Hf, Hi. destruct p as [i|].
      * specialize (Hp i eq_refl). unfold has_id in Hp.
        split; intro; congruence.
      * split; reflexivity.
    + unfold typeText, item. cbn [formValues store].
      rewrite id_setText. exact IH.
    + unfold pickDate.
      assert (Hst : store (datePickerOnChange (date_onChange f) d k w)
                    = store w)
        by (apply datePickerOnChange_keeps; reflexivity).
      assert (Hid : id (formValues
                          (datePickerOnChange (date_onChange f) d k w))
                    = id (formValues w)).
      { apply (datePickerOnChange_keeps (fun x => id (formValues x))).
        intros s x. cbn [date_onChange formValues]. apply id_setDate. }
      unfold item. rewrite Hid, Hst. exact IH.
    + destruct (schema (formValues w)) as [|e es] eqn:Hs.
      * rewrite (clickSubmit_valid w Hs).
        match goal with |- context [clickClose ?x] => set (w1 := x) end.
        destruct (close_facts w1) as (Hf & _ & _ & Hst & _).
        destruct (isOpen_closed _ _ Hst) as [_ Hi].
        rewrite Hf, Hi. split; reflexivity.
      * unfold clickSubmit, handleSubmit. rewrite Hs.
        rewrite useEffect_synced by exact (proj1 Hinv).
        exact IH.
    + destruct (close_facts w) as (Hf & _ & _ & Hst & _).
      destruct (isOpen_closed _ _ Hst) as [_ Hi].
      rewrite Hf, Hi. split; reflexivity.
Qed.

(** C2, amended.  For every submitted record that passes the schema, the
    branch is chosen by the item of the modal's payload: with an item
    the edit action is dispatched, without one the add action, and the
    action carries the submitted record.  When the modal is only ever
    opened on items that carry an identifier, this is the choice by the
    identifier of the submitted record: present for edit, absent for
    add. *)
Theorem C2_branch_by_payload_item (w : Modal) :
  schema (formValues w) = [] ->
  submitted_action w
  = Some (match payload (modal (store w)) with
          | Some _ => editItem items_path (formValues w)
          | None => addItem items_path (formValues w)
          end)
  /\ (reachable has_id w ->
      submitted_action w
      = Some (match id (formValues w) with
              | Some _ => editItem items_path (formValues w)
              | None => addItem items_path (formValues w)
              end)).
Proof.
  intro Hs.
  assert (H : submitted_action w
              = Some (match payload (modal (store w)) with
                      | Some _ => editItem items_path (formValues w)
                      | None => addItem items_path (formValues w)
                      end)).
  { unfold submitted_action.
    rewrite new_actions_clickSubmit, Hs.
    unfold isEditMode, item.
    destruct (payload (modal (store w))); reflexivity. }
  split; [exact H|].
  intro Hr. rewrite H.
  pose proof (reachable_id w Hr) as Hid. unfold item in Hid.
  destruct (payload (modal (store w))) as [i|],
           (id (formValues w)) as [k|]; try reflexivity.
  - destruct Hid as [Hid _]. specialize (Hid eq_refl). discriminate.
  - destruct Hid as [_ Hid]. specialize (Hid eq_refl). discriminate.
Qed.

Lemma C2_branch_by_payload_item_witness :
  submitted_action add_filled
  = Some (addItem items_path (formValues add_filled))
  /\ submitted_action edit_opened
     = Some (editItem items_path (formValues edit_opened)).
Proof.
  split.
  - exact (proj1 (C2_branch_by_payload_item add_filled eq_refl)).
  - exact (proj1 (C2_branch_by_payload_item edit_opened eq_refl)).
Defined.

(** C6.  The url rule accepts a string without a scheme: [example.com]
    holds no colon, it matches the pattern, and a record with it as url
    passes the schema. *)
Theorem C6_url_pattern_accepts_schemeless :
  exists s : string,
    ~ In ":"%char (list_ascii_of_string s)
    /\ test url_pattern s = true
    /\ joi_string_pattern_allow_empty url_pattern s = []
    /\ schema item_without_id = []
    /\ url item_without_id = s.
Proof.
  exists "example.com". repeat split; try reflexivity.
  simpl. intros H. repeat (destruct H as [H|H]; [discriminate|]). exact H.
Qed.

End WorkModalFacts.

(* ================================================================== *)
(** * Properties of the ISO formatting and of the date pickers          *)
(* ================================================================== *)

Section DateFacts.

Import JsDate WorkModal.

Local Open Scope Z_scope.

Lemma between_true (lo hi v : Z) : lo <= v <= hi -> between lo hi v = true.
Proof. unfold between. intros [H1 H2]. apply andb_true_intro. lia. Qed.

Lemma between_inv (lo hi v : Z) : between lo hi v = true -> lo <= v <= hi.
Proof. unfold between. intro H. apply andb_prop in H. lia. Qed.

Lemma code_digit (n : Z) :
  0 <= n <= 9 -> N_of_ascii (digit n) = (48 + Z.to_N n)%N.
Proof.
  intro H. unfold digit. apply N_ascii_embedding. lia.
Qed.

Lemma digit_value_digit (n : Z) :
  0 <= n <= 9 -> digit_value (digit n) = Some n.
Proof.
  intro H. unfold digit_value. rewrite (code_digit n H).
  assert (Hlo : N.leb 48 (48 + Z.to_N n) = true) by (apply N.leb_le; lia).
  assert (Hhi : N.leb (48 + Z.to_N n) 57 = true) by (apply N.leb_le; lia).
  rewrite Hlo, Hhi. cbn [andb]. f_equal. lia.
Qed.

Lemma digit_not_sign (n : Z) :
  0 <= n <= 9 ->
  Ascii.eqb (digit n) "+" = false /\ Ascii.eqb (digit n) "-" = false.
Proof.
  intro H. pose proof (code_digit n H) as Hc.
  split; apply Ascii.eqb_neq; intro E; rewrite E in Hc.
  - change (N_of_ascii "+") with 43%N in Hc. lia.
  - change (N_of_ascii "-") with 45%N in Hc. lia.
Qed.

Lemma take_num_pad (w k : nat) : forall (n acc : Z) (rest : list ascii),
  0 <= n < 10 ^ Z.of_nat w ->
  take_num (w + k) acc (pad w n ++ rest)
  = take_num k (acc * 10 ^ Z.of_nat w + n) rest.
Proof.
  revert k. induction w as [|w IH]; intros k n acc rest Hn.
  - simpl in *. f_equal. lia.
  - rewrite Nat2Z.inj_succ, Z.pow_succ_r in Hn by lia.
    cbn [pad]. rewrite <- app_assoc. cbn [app].
    replace (S w + k)%nat with (w + S k)%nat by lia.
    rewrite IH.
    + cbn [take_num].
      rewrite digit_value_digit
        by (pose proof (Z.mod_pos_bound n 10); lia).
      f_equal.
      rewrite Nat2Z.inj_succ, Z.pow_succ_r by lia.
      pose proof (Z.div_mod n 10). lia.
    + split.
      * apply Z.div_pos; lia.
      * apply Z.div_lt_upper_bound; lia.
Qed.

Lemma take_num_pad_all (w : nat) (n : Z) (rest : list ascii) :
  0 <= n < 10 ^ Z.of_nat w ->
  take_num w 0 (pad w n ++ rest) = Some (n, rest).
Proof.
  intro Hn.
  pose proof (take_num_pad w 0 n 0 rest Hn) as H.
  rewrite Nat.add_0_r in H. rewrite H. reflexivity.
Qed.

Lemma bind_take_num {B : Type} (w : nat) (n : Z) (rest : list ascii)
    (f : Z * list ascii -> option B) :
  0 <= n < 10 ^ Z.of_nat w ->
  bind (take_num w 0 (pad w n ++ rest)) f = f (n, rest).
Proof. intro Hn. now rewrite take_num_pad_all. Qed.

Lemma bind_Some {A B : Type} (a : A) (f : A -> option B) :
  bind (Some a) f = f a.
Proof. reflexivity. Qed.

Lemma bind_expect {B : Type} (c : ascii) (rest : list ascii)
    (f : list ascii -> option B) :
  bind (expect c (c :: rest)) f = f rest.
Proof. simpl. now rewrite Ascii.eqb_refl. Qed.

Lemma pad_head (w : nat) : forall (n : Z) (rest : list ascii),
  exists k r, 0 <= k <= 9 /\ pad (S w) n ++ rest = digit k :: r.
Proof.
  induction w as [|w IH]; intros n rest.
  - exists (n mod 10), rest. split; [|reflexivity].
    pose proof (Z.mod_pos_bound n 10). lia.
  - change (pad (S (S w)) n) with (pad (S w) (n / 10) ++ [digit (n mod 10)]).
    rewrite <- app_assoc. apply IH.
Qed.

Lemma parse_year_chars (y : Z) (rest : list ascii) :
  - 999999 <= y <= 999999 ->
  parse_year (year_chars y ++ rest) = Some (y, rest).
Proof.
  intro Hy. unfold year_chars.
  destruct ((0 <=? y) && (y <=? 9999)) eqn:E4.
  - apply andb_prop in E4.
    destruct (pad_head 3 y rest) as (k & r & Hk & Hl).
    destruct (digit_not_sign k Hk) as [Hp Hm].
    assert (Hpy : parse_year (pad 4 y ++ rest)
                  = take_num 4 0 (pad 4 y ++ rest)).
    { unfold parse_year. rewrite Hl, Hp, Hm. reflexivity. }
    rewrite Hpy. apply take_num_pad_all. simpl. lia.
  - destruct (y <? 0) eqn:En.
    + cbn [app parse_year]. simpl (Ascii.eqb _ _). cbv iota.
      rewrite bind_take_num by (simpl; lia).
      cbv beta iota. now rewrite Z.opp_involutive.
    + cbn [app parse_year]. simpl (Ascii.eqb _ _). cbv iota.
      apply take_num_pad_all.
      apply andb_false_iff in E4. simpl. lia.
Qed.

Lemma all_from_spec (P : Z -> bool) (n : nat) : forall z x,
  all_from n z P = true -> z <= x < z + Z.of_nat n -> P x = true.
Proof.
  induction n as [|n IH]; intros z x H Hx.
  - simpl in Hx. lia.
  - cbn [all_from] in H. apply andb_prop in H as [Hz Hn].
    destruct (Z.eq_dec x z) as [->|Hne]; [assumption|].
    apply (IH (z + 1)); [assumption|lia].
Qed.

Lemma civil_ok_era : all_from (Z.to_nat 146097) 0 civil_ok = true.
Proof. vm_cast_no_check (eq_refl true). Qed.

Lemma civil_of_doe_bounds (doe yoe m d : Z) :
  0 <= doe < 146097 ->
  civil_of_doe doe = (yoe, m, d) ->
  0 <= yoe <= 399 /\ 1 <= m <= 12 /\ 1 <= d <= 31.
Proof.
  intros Hd Hc.
  assert (H : civil_ok doe = true).
  { apply (all_from_spec civil_ok (Z.to_nat 146097) 0).
    - apply civil_ok_era.
    - rewrite Z2Nat.id; lia. }
  unfold civil_ok in H. rewrite Hc in H.
  apply andb_prop in H as [H H3]. apply andb_prop in H as [H1 H2].
  apply between_inv in H1, H2, H3. auto.
Qed.

Lemma civil_from_days_bounds (t y m d : Z) :
  time_value t ->
  civil_from_days (Day t) = (y, m, d) ->
  - 999999 <= y <= 999999 /\ 1 <= m <= 12 /\ 1 <= d <= 31.
Proof.
  unfold time_value, maxTime, civil_from_days, Day, msPerDay.
  intros Ht Hc.
  set (z := t / 86400000 + 719468) in *.
  destruct (civil_of_doe (z mod 146097)) as [[yoe m'] d'] eqn:Hdoe.
  injection Hc as Hy Hm Hd. subst m' d'.
  destruct (civil_of_doe_bounds _ _ _ _
              (Z.mod_pos_bound z 146097 ltac:(lia)) Hdoe)
    as (Hyoe & Hm & Hd).
  repeat split; try lia.
  - assert (-100000000 <= t / 86400000)
      by (apply Z.div_le_lower_bound; lia).
    assert (-680 <= z / 146097)
      by (apply Z.div_le_lower_bound; lia).
    destruct (m <=? 2); lia.
  - assert (t / 86400000 <= 100000000)
      by (apply Z.div_le_upper_bound; lia).
    assert (z / 146097 <= 690)
      by (apply Z.div_le_upper_bound; lia).
    destruct (m <=? 2); lia.
Qed.

Lemma time_fields (t : Z) :
  0 <= HourFromTime t <= 23 /\ 0 <= MinFromTime t <= 59
  /\ 0 <= SecFromTime t <= 59 /\ 0 <= msFromTime t <= 999.
Proof.
  unfold HourFromTime, MinFromTime, SecFromTime, msFromTime,
    TimeWithinDay, msPerDay.
  pose proof (Z.mod_pos_bound t 86400000 ltac:(lia)) as Hx.
  set (x := t mod 86400000) in *.
  pose proof (Z.mod_pos_bound (x / 60000) 60 ltac:(lia)).
  pose proof (Z.mod_pos_bound (x / 1000) 60 ltac:(lia)).
  pose proof (Z.mod_pos_bound x 1000 ltac:(lia)).
  assert (0 <= x / 3600000) by (apply Z.div_pos; lia).
  assert (x / 3600000 < 24) by (apply Z.div_lt_upper_bound; lia).
  lia.
Qed.

(** Every time value is printed as an ISO-8601 instant. *)
Lemma toISOString_is_iso (t : Z) :
  time_value t -> is_iso_instant (toISOString t) = true.
Proof.
  intro Ht. unfold is_iso_instant, toISOString.
  rewrite list_ascii_of_string_of_list_ascii.
  unfold iso_chars.
  destruct (civil_from_days (Day t)) as [[y m] d] eqn:Hc.
  destruct (civil_from_days_bounds t y m d Ht Hc) as (Hy & Hm & Hd).
  destruct (time_fields t) as (Hh & Hmi & Hs & Hms).
  unfold parse_instant.
  rewrite parse_year_chars by exact Hy.
  rewrite bind_Some. cbv beta iota.
  repeat first
    [ rewrite bind_expect
    | rewrite bind_take_num by (simpl; lia)
    | progress cbv beta iota ].
  rewrite !between_true by lia. reflexivity.
Qed.

Lemma getDate_setDate (f : DateInput) (s : string) (v : FormData) :
  getDate f (setDate f s v) = s.
Proof. destruct f; reflexivity. Qed.

(** C5.  For both date fields and every prior value: a change event of
    the date picker with an invalid date and a keyboard input that is
    not empty leaves the form, and so the stored field value, as it was;
    every value a change event commits to the field is the empty string
    or an ISO-8601 instant, and the field ends with the last committed
    value, or its prior value when none is committed. *)
Theorem C5_date_picker_commits (f : DateInput) (date : Date)
    (keyboardInputValue : option string) (w : Modal) :
  date_ok date ->
  (isValid date = false -> isEmpty_input keyboardInputValue = false ->
   pickDate f date keyboardInputValue w = w
   /\ getDate f (formValues (pickDate f date keyboardInputValue w))
      = getDate f (formValues w))
  /\ (forall v, In v (committed date keyboardInputValue) ->
      v = EmptyString \/ is_iso_instant v = true)
  /\ getDate f (formValues (pickDate f date keyboardInputValue w))
     = last (committed date keyboardInputValue) (getDate f (formValues w)).
Proof.
  intro Hok. unfold pickDate, committed, datePickerOnChange.
  split; [|split].
  - intros Hv He. rewrite He.
    destruct date as [t|]; [discriminate|]. auto.
  - intros v Hin.
    destruct date as [t|]; simpl in Hin;
      destruct (isEmpty_input keyboardInputValue); simpl in Hin.
    + destruct Hin as [<-|[<-|[]]]; auto.
      right. now apply toISOString_is_iso.
    + destruct Hin as [<-|[]].
      right. now apply toISOString_is_iso.
    + destruct Hin as [<-|[]]. auto.
    + destruct Hin.
  - destruct date as [t|]; simpl;
      destruct (isEmpty_input keyboardInputValue); simpl;
      rewrite ?getDate_setDate; reflexivity.
Qed.

Lemma C5_date_picker_commits_witness :
  pickDate i_date_start None (Some "31/31/2020"%string) Examples.edit_opened
  = Examples.edit_opened
  /\ is_iso_instant (toISOString 1700000000000) = true
  /\ getDate i_date_end
       (formValues
          (pickDate i_date_end (Some 1700000000000) None
             Examples.edit_opened))
     = "2023-11-14T22:13:20.000Z"%string.
Proof.
  split; [|split].
  - exact (proj1 (proj1 (C5_date_picker_commits i_date_start None
                           (Some "31/31/2020"%string)
                           Examples.edit_opened I)
                    eq_refl eq_refl)).
  - destruct (proj1 (proj2 (C5_date_picker_commits i_date_end
                              (Some 1700000000000) None
                              Examples.edit_opened
                              ltac:(unfold date_ok, time_value, maxTime;
                                    lia)))
                (toISOString 1700000000000)
                (or_intror (or_introl eq_refl))) as [H|H].
    + discriminate H.
    + exact H.
  - exact (proj2 (proj2 (C5_date_picker_commits i_date_end
                           (Some 1700000000000) None
                           Examples.edit_opened
                           ltac:(unfold date_ok, time_value, maxTime;
                                 lia)))).
Defined.

End DateFacts.

(* ================================================================== *)
(** * Properties of the link sub-form and of the toolbar                *)
(* ================================================================== *)

Section EditorFacts.

Import TipTap RichInput Examples Described.

Local Open Scope list_scope.

Lemma firstn_length_app {A : Type} (l l' : list A) :
  firstn (List.length l) (l ++ l') = l.
Proof. induction l; simpl; congruence. Qed.

Lemma run_len_le (l : list Cell) : run_len l <= List.length l.
Proof.
  induction l as [|c l IH]; simpl; [lia|].
  destruct (has_link c); lia.
Qed.

Lemma run_len_app (l1 l2 : list Cell) :
  Forall linked l1 ->
  run_len (l1 ++ l2) = List.length l1 + run_len l2.
Proof.
  induction 1 as [|c l Hc Hl IH]; simpl; [reflexivity|].
  unfold linked in Hc. now rewrite Hc, IH.
Qed.

Lemma run_len_split (l : list Cell) :
  exists x y,
    l = x ++ y /\ List.length x = run_len l
    /\ Forall linked x /\ run_len y = 0.
Proof.
  induction l as [|c l (x & y & Hl & Hlen & Hx & Hy)].
  - exists [], []. repeat split; auto.
  - simpl. destruct (has_link c) eqn:Hc.
    + exists (c :: x), y. simpl. repeat split; auto; congruence.
    + exists [], (c :: l). simpl. rewrite Hc. repeat split; auto.
Qed.

Lemma Forall_linked_rev (l : list Cell) :
  Forall linked l -> Forall linked (rev l).
Proof. apply Forall_rev. Qed.

(** The shape of a document around a mark range. *)
Lemma getMarkRange_shape (d : Doc) (p a b : nat) :
  p <= List.length d ->
  getMarkRange d p = Some (a, b) ->
  exists pre run post,
    d = pre ++ run ++ post
    /\ List.length pre = a /\ List.length (pre ++ run) = b
    /\ a <= p <= b /\ a < b
    /\ Forall linked run
    /\ run_len (rev pre) = 0 /\ run_len post = 0.
Proof.
  intros Hp. unfold getMarkRange.
  destruct (run_len (skipn p d) + run_len (rev (firstn p d)) =? 0) eqn:E;
    [discriminate|].
  apply Nat.eqb_neq in E. intro H. injection H as Ha Hb.
  destruct (run_len_split (rev (firstn p d)))
    as (x & y & Hxy & Hlx & Hx & Hy).
  destruct (run_len_split (skipn p d)) as (u & v & Huv & Hlu & Hu & Hv).
  assert (Hfirst : firstn p d = rev y ++ rev x).
  { rewrite <- rev_app_distr, <- Hxy. now rewrite rev_involutive. }
  assert (Hlen : List.length (firstn p d) = p)
    by (apply firstn_length_le; exact Hp).
  assert (Hly : List.length (rev y) + List.length x = p).
  { rewrite <- Hlen, Hfirst, length_app, !length_rev. reflexivity. }
  exists (rev y), (rev x ++ u), v.
  repeat split.
  - rewrite <- (firstn_skipn p d) at 1.
    rewrite Hfirst, Huv, <- !app_assoc. reflexivity.
  - lia.
  - rewrite !length_app, !length_rev in *. lia.
  - lia.
  - rewrite !length_rev in *. lia.
  - rewrite !length_rev in *. lia.
  - apply Forall_app. split; [now apply Forall_linked_rev|exact Hu].
  - now rewrite rev_involutive.
  - exact Hv.
Qed.

Lemma getMarkRange_of_shape (pre run post : list Cell) :
  run <> [] -> Forall linked run ->
  run_len (rev pre) = 0 -> run_len post = 0 ->
  getMarkRange (pre ++ run ++ post) (List.length pre)
  = Some (List.length pre, List.length (pre ++ run)).
Proof.
  intros Hne Hrun Hpre Hpost. unfold getMarkRange.
  rewrite skipn_length_app, firstn_length_app, Hpre.
  rewrite run_len_app, Hpost by exact Hrun.
  destruct run as [|c run]; [congruence|].
  simpl List.length. rewrite length_app. simpl.
  do 2 f_equal; lia.
Qed.

(** Extending twice is extending once. *)
Lemma getMarkRange_idem (d : Doc) (p a b : nat) :
  p <= List.length d ->
  getMarkRange d p = Some (a, b) ->
  getMarkRange d a = Some (a, b).
Proof.
  intros Hp H.
  destruct (getMarkRange_shape d p a b Hp H)
    as (pre & run & post & Hd & Ha & Hb & Hap & Hab & Hrun & Hpre & Hpost).
  subst d a b.
  apply getMarkRange_of_shape; auto.
  intros ->. rewrite app_nil_r in Hab. lia.
Qed.

Lemma firstn_app_len {A : Type} (n : nat) (x y : list A) :
  List.length x = n -> firstn n (x ++ y) = x.
Proof. intros <-. apply firstn_length_app. Qed.

Lemma skipn_app_len {A : Type} (n : nat) (x y : list A) :
  List.length x = n -> skipn n (x ++ y) = y.
Proof. intros <-. apply skipn_length_app. Qed.

Lemma slice_length (a b : nat) (d : Doc) :
  a <= b -> b <= List.length d -> List.length (slice a b d) = b - a.
Proof.
  intros Hab Hb. unfold slice.
  rewrite firstn_length_le; [reflexivity|]. rewrite length_skipn. lia.
Qed.

Lemma mark_range_outside (m : option string) (a b : nat) (d : Doc) :
  a <= b -> b <= List.length d ->
  firstn a (mark_range m a b d) = firstn a d
  /\ skipn b (mark_range m a b d) = skipn b d.
Proof.
  intros Hab Hb. unfold mark_range. split.
  - apply firstn_app_len. apply firstn_length_le. lia.
  - rewrite app_assoc. apply skipn_app_len.
    rewrite length_app, length_map, slice_length by assumption.
    rewrite firstn_length_le by lia. lia.
Qed.

Lemma cells_length (m : option string) (s : string) :
  List.length (cells m s) = String.length s.
Proof.
  unfold cells. rewrite length_map.
  induction s; simpl; congruence.
Qed.

Lemma map_set_link_cells (m m' : option string) (s : string) :
  map (set_link m') (cells m s) = cells m' s.
Proof.
  unfold cells. rewrite map_map. reflexivity.
Qed.

Lemma extend_covered (t : Tr) (a b : nat) :
  getMarkRange (tr_doc t) (tr_from t) = Some (a, b) ->
  a <= tr_from t -> tr_to t <= b ->
  extendMarkRange_link t
  = {| tr_doc := tr_doc t; tr_from := a; tr_to := b;
       tr_storedMarks := None; tr_docChanged := tr_docChanged t |}.
Proof.
  intros Hr Ha Hb. unfold extendMarkRange_link. rewrite Hr.
  assert (Hc : ((a <=? tr_from t) && (tr_to t <=? b))%bool = true).
  { apply andb_true_intro. split; apply Nat.leb_le; assumption. }
  now rewrite Hc.
Qed.

Lemma chain_extend_covered (e : Editor) (a b : nat) :
  getMarkRange (doc e) (from e) = Some (a, b) ->
  a <= from e -> to e <= b ->
  chain e [extendMarkRange_link]
  = {| doc := doc e; from := a; to := b;
       storedMarks := if a =? b then None else None;
       done := done e; undone := undone e |}.
Proof.
  intros Hr Ha Hb. unfold chain. cbn [fold_left].
  rewrite (extend_covered (begin e) a b Hr Ha Hb). reflexivity.
Qed.

(** The render of the form on a covered selection selects the whole
    range of the link and changes nothing else. *)
Lemma InsertLinkForm_extends (e : Editor) (a b : nat) :
  link_covers e a b -> from e <= List.length (doc e) ->
  fst (InsertLinkForm e)
  = {| doc := doc e; from := a; to := b; storedMarks := None;
       done := done e; undone := undone e |}.
Proof.
  intros (Ht & Hr & Hb) Hp.
  destruct (getMarkRange_shape _ _ _ _ Hp Hr)
    as (pre & mid & post & _ & _ & _ & [Ha _] & _).
  unfold InsertLinkForm. rewrite Ht. cbn [fst].
  rewrite (chain_extend_covered e a b Hr Ha Hb).
  destruct (a =? b); reflexivity.
Qed.

(** The extension made by the form's render matters: [setLink] inserts at
    the selection it reads before its chain runs, so on a cursor inside
    a link that no render has extended, the empty-URL branch unlinks the
    whole link but only inserts the display text at the cursor. *)
Lemma setLink_without_render :
  doc (setLink EmptyString "X" cursor_in_link) = cells None "go heXre now"
  /\ doc (submitLinkForm {| url := EmptyString; displayText := "X" |}
            cursor_in_link)
     = cells None "go X now".
Proof. split; reflexivity. Qed.

(** C7.  In every editor state in which a link mark with a URL covers
    the selection, the link's range being [a, b): opening the link
    sub-form and submitting it with an empty URL leaves the document
    with the characters of [a, b) replaced by the display text, which
    carries no link mark; what is before [a] and after [b] is as it was.
    That range holds the selection, and every character of it carried a
    link mark. *)
Theorem C7_empty_url_removes_link (e : Editor) (text : string) (a b : nat) :
  well_formed e ->
  link_covers e a b ->
  doc (submitLinkForm {| url := EmptyString; displayText := text |} e)
  = firstn a (doc e) ++ cells None text ++ skipn b (doc e)
  /\ Forall (fun c => link c = None) (cells None text)
  /\ Forall linked (slice a b (doc e))
  /\ a <= from e /\ to e <= b.
Proof.
  intros (Hft & Hto & _) Hcov.
  assert (Hp : from e <= List.length (doc e)) by lia.
  pose proof Hcov as (_ & Hr & Htb).
  pose proof (getMarkRange_idem _ _ _ _ Hp Hr) as Hidem.
  destruct (getMarkRange_shape _ _ _ _ Hp Hr)
    as (pre & mid & post & Hd & Ha & Hb & [Hap _] & Hab & Hrun & _).
  assert (Hble : b <= List.length (doc e)).
  { rewrite Hd, <- Hb, !length_app. lia. }
  repeat split; try assumption.
  - unfold submitLinkForm, onInsert.
    rewrite (InsertLinkForm_extends e a b Hcov Hp).
    unfold setLink. cbn [url displayText from to String.eqb].
    unfold chain. cbn [fold_left]. unfold focus at 1.
    match goal with |- context [extendMarkRange_link ?t] =>
      rewrite (extend_covered t a b Hidem (le_n _) (le_n _))
    end.
    unfold begin, unsetLink.
    cbn [doc tr_doc tr_from tr_to tr_docChanged].
    assert (Hne : (a =? b) = false) by (apply Nat.eqb_neq; lia).
    rewrite Hne.
    destruct (mark_range_outside None a b (doc e) ltac:(lia) Hble)
      as [Hfst Hskp].
    unfold insertContentAt, insertText_at, run.
    destruct text as [|c text].
    + assert (Hlt : (a <? b) = true) by (apply Nat.ltb_lt; lia).
      rewrite Hlt. cbn [doc tr_doc]. now rewrite Hfst, Hskp.
    + cbn [doc tr_doc]. unfold insertion_link. cbn [tr_storedMarks].
      now rewrite Hfst, Hskp.
  - unfold cells. apply Forall_map. apply Forall_forall. reflexivity.
  - replace (slice a b (doc e)) with mid; [exact Hrun|].
    unfold slice. rewrite Hd, <- Ha, <- Hb.
    rewrite skipn_length_app, length_app.
    replace (List.length pre + List.length mid - List.length pre)
      with (List.length mid) by lia.
    now rewrite firstn_length_app.
Qed.

Lemma C7_empty_url_removes_link_witness :
  doc (submitLinkForm {| url := EmptyString; displayText := "there" |}
         cursor_in_link)
  = cells None "go there now".
Proof.
  refine (proj1 (C7_empty_url_removes_link cursor_in_link "there" 3 7 _ _)).
  - unfold well_formed. simpl. lia.
  - unfold link_covers. simpl. repeat split; lia.
Defined.

Lemma extend_after_plain_insert (pre post : list Cell) (a : ascii)
    (text : string) (st : option (option string)) (ch : bool) :
  let t := {| tr_doc := pre ++ cells None (String a text) ++ post;
              tr_from := List.length pre;
              tr_to := List.length pre + String.length (String a text);
              tr_storedMarks := st; tr_docChanged := ch |} in
  extendMarkRange_link t = t.
Proof.
  intro t. unfold extendMarkRange_link, getMarkRange. subst t.
  cbn [tr_doc tr_from tr_to].
  rewrite skipn_length_app. cbn [cells list_ascii_of_string map app run_len
    has_link link].
  cbn [Nat.add].
  destruct (run_len (rev (firstn (List.length pre) _)) =? 0);
    [reflexivity|].
  assert (Hc : (List.length pre + String.length (String a text)
                <=? List.length pre + 0) = false).
  { apply Nat.leb_gt. simpl. lia. }
  rewrite Hc, andb_false_r. reflexivity.
Qed.

(** C8, as stated, fails.  With a selection that starts in a link and
    ends in a later link of the same href, the replacement inherits the
    link mark, the chain extends the selection to the whole link around
    it, and the new URL is put on all of it; with the plain text [ab]
    selected right before a link and an empty display text, the link to
    the new URL is put on the neighbouring link, not on the (empty)
    replacement range. *)
Lemma C8_counterexample :
  let e1 := fst (InsertLinkForm across_links) in
  let e2 := fst (InsertLinkForm before_link) in
  (from e1 < to e1
   /\ doc (submitLinkForm
             {| url := "https://x.test"; displayText := "XY" |}
             across_links)
      = cells (Some "https://x.test"%string) "aXYf"
   /\ doc (submitLinkForm
             {| url := "https://x.test"; displayText := "XY" |}
             across_links)
      <> replaced_and_linked e1 "https://x.test" "XY")
  /\ (from e2 < to e2
      /\ doc (submitLinkForm
                {| url := "https://x.test"; displayText := EmptyString |}
                before_link)
         = cells (Some "https://x.test"%string) "cd"
      /\ doc (submitLinkForm
                {| url := "https://x.test"; displayText := EmptyString |}
                before_link)
         <> replaced_and_linked e2 "https://x.test" EmptyString).
Proof.
  vm_compute. repeat split; try lia; discriminate.
Qed.

Lemma link_after_insert (pre mid post : list Cell) (href : string)
    (a b : nat) (st : option (option string)) :
  Forall linked mid ->
  0 < run_len (rev pre) + List.length mid + run_len post ->
  setLink_href href
    (extendMarkRange_link
       (setTextSelection (List.length pre)
          (List.length pre + List.length mid)
          {| tr_doc := pre ++ mid ++ post; tr_from := a; tr_to := b;
             tr_storedMarks := st; tr_docChanged := true |}))
  = {| tr_doc :=
         firstn (List.length pre - run_len (rev pre)) pre
           ++ map (set_link (Some href))
                (skipn (List.length pre - run_len (rev pre)) pre
                   ++ mid ++ firstn (run_len post) post)
           ++ skipn (run_len post) post;
       tr_from := List.length pre - run_len (rev pre);
       tr_to := List.length pre + List.length mid + run_len post;
       tr_storedMarks := None; tr_docChanged := true |}.
Proof.
  intros Hmid Hpos.
  pose proof (run_len_le (rev pre)) as Hb. rewrite length_rev in Hb.
  pose proof (run_len_le post) as Ha.
  set (before := run_len (rev pre)) in *.
  set (after := run_len post) in *.
  unfold setTextSelection. cbn [tr_doc tr_docChanged].
  rewrite !Nat.min_l by (rewrite !length_app; lia).
  unfold extendMarkRange_link, getMarkRange. cbn [tr_doc tr_from tr_to].
  rewrite skipn_length_app, firstn_length_app.
  rewrite run_len_app by exact Hmid. fold before after.
  assert (H0 : (List.length mid + after + before =? 0) = false)
    by (apply Nat.eqb_neq; lia).
  rewrite H0.
  assert (H1 : ((List.length pre - before <=? List.length pre)
                && (List.length pre + List.length mid
                    <=? List.length pre + (List.length mid + after)))%bool
               = true).
  { apply andb_true_intro. split; apply Nat.leb_le; lia. }
  rewrite H1. cbn [tr_docChanged].
  unfold setLink_href. cbn [tr_doc tr_from tr_to tr_storedMarks tr_docChanged].
  assert (H2 : (List.length pre - before
                =? List.length pre + (List.length mid + after)) = false)
    by (apply Nat.eqb_neq; lia).
  rewrite H2. cbn [orb].
  f_equal; [|lia].
  set (p := List.length pre) in *.
  set (m := List.length mid) in *.
  assert (Hs : List.length (skipn (p - before) pre) = before)
    by (rewrite length_skipn; fold p; lia).
  assert (E1 : firstn (p - before) (pre ++ mid ++ post)
               = firstn (p - before) pre).
  { rewrite firstn_app. fold p.
    replace (p - before - p) with 0 by lia.
    cbn [firstn]. now rewrite app_nil_r. }
  assert (E2 : skipn (p - before) (pre ++ mid ++ post)
               = skipn (p - before) pre ++ mid ++ post).
  { rewrite skipn_app. fold p.
    replace (p - before - p) with 0 by lia. reflexivity. }
  assert (E3 : skipn (p + (m + after)) (pre ++ mid ++ post)
               = skipn after post).
  { rewrite app_assoc, skipn_app, length_app. fold p m.
    rewrite skipn_all2 by (rewrite length_app; fold p m; lia).
    replace (p + (m + after) - (p + m)) with after by lia. reflexivity. }
  assert (E4 : firstn (p + (m + after) - (p - before))
                 (skipn (p - before) pre ++ mid ++ post)
               = skipn (p - before) pre ++ mid ++ firstn after post).
  { rewrite firstn_app, Hs.
    rewrite firstn_all2 by lia.
    replace (p + (m + after) - (p - before) - before) with (m + after)
      by lia.
    rewrite firstn_app. fold m.
    rewrite firstn_all2 by (fold m; lia).
    replace (m + after - m) with after by lia. reflexivity. }
  unfold mark_range, slice.
  now rewrite E1, E2, E3, E4.
Qed.

Lemma getMarkRange_at_join (pre post : list Cell) :
  getMarkRange (pre ++ post) (List.length pre)
  = if run_len post + run_len (rev pre) =? 0 then None
    else Some (List.length pre - run_len (rev pre),
               List.length pre + run_len post).
Proof.
  unfold getMarkRange. now rewrite skipn_length_app, firstn_length_app.
Qed.

Lemma run_len_link_at (d : Doc) (i : nat) (h : string) :
  link_at d i = Some h -> 0 < run_len (skipn i d).
Proof.
  unfold link_at. revert d.
  induction i as [|i IH]; intros [|c d] H; try discriminate.
  - cbn in H |- *. unfold has_link. rewrite H. lia.
  - cbn [nth_error] in H. cbn [skipn]. apply IH. exact H.
Qed.

Lemma widened_pieces (d : Doc) (a b before after : nat) (href : string)
    (mid : list Cell) :
  before <= a -> a <= b -> b <= List.length d ->
  firstn (a - before) (firstn a d)
    ++ map (set_link (Some href))
         (skipn (a - before) (firstn a d)
            ++ mid ++ firstn after (skipn b d))
    ++ skipn after (skipn b d)
  = firstn (a - before) d
      ++ map (set_link (Some href)) (slice (a - before) a d)
      ++ map (set_link (Some href)) mid
      ++ map (set_link (Some href)) (slice b (b + after) d)
      ++ skipn (b + after) d.
Proof.
  intros Hb Hab Hlen.
  rewrite firstn_firstn, Nat.min_l by lia.
  rewrite skipn_firstn_comm, skipn_skipn.
  unfold slice.
  replace (b + after - b) with after by lia.
  replace (after + b) with (b + after) by lia.
  rewrite !map_app, <- !app_assoc. reflexivity.
Qed.

(** C8, amended.  In every editor state with a non-empty selection
    [from, to), for every non-empty URL and every display text.  When
    the replacement touches no link (a non-empty display text inherits
    no link mark, an empty one leaves no linked character next to the
    place of the deleted selection), submitting the link sub-form
    replaces the selected text with the display text and puts the link
    to that URL on exactly the replacement range
    [from, from + length text), which is left selected; the rest of the
    document is unchanged.  In every other case the [extendMarkRange]
    step of the chain widens the selection to the linked characters
    right before [from] and right after [to], and the link to the URL is
    put on all of this range, which is longer than the display text. *)
Theorem C8_link_on_replacement_range (e : Editor) (href text : string) :
  well_formed e ->
  from e < to e ->
  href <> EmptyString ->
  let e' := onInsert {| url := href; displayText := text |} e in
  let before := run_len (rev (firstn (from e) (doc e))) in
  let after := run_len (skipn (to e) (doc e)) in
  (touches_link e text = false ->
     doc e' = replaced_and_linked e href text
     /\ from e' = from e
     /\ to e' = from e + String.length text)
  /\ (touches_link e text = true ->
     doc e' = widened_and_linked e href text
     /\ from e' = from e - before
     /\ to e' = from e + String.length text + after
     /\ String.length text < to e' - from e').
Proof.
  intros (_ & Hto & Hst) Hlt Hhref.
  specialize (Hst Hlt).
  assert (Hfrom : List.length (firstn (from e) (doc e)) = from e)
    by (apply firstn_length_le; lia).
  pose proof (run_len_le (rev (firstn (from e) (doc e)))) as Hbefore.
  rewrite length_rev, Hfrom in Hbefore.
  apply String.eqb_neq in Hhref.
  assert (Hne : (from e =? to e) = false) by (apply Nat.eqb_neq; lia).
  cbv zeta.
  unfold onInsert, setLink. cbn [url displayText].
  rewrite Hhref, Hne.
  unfold chain. cbn [fold_left].
  unfold insertContentAt, insertText_at, insertion_link, begin, focus.
  cbn [tr_doc tr_from tr_to tr_storedMarks tr_docChanged].
  rewrite Hst, Hne.
  destruct text as [|c text]; unfold touches_link.
  - (* an empty display text: the selection is deleted *)
    assert (Hltb : (from e <? to e) = true) by (apply Nat.ltb_lt; lia).
    rewrite Hltb.
    cbn [String.length]. rewrite Nat.add_0_r.
    split; intro Ht.
    + apply negb_false_iff, Nat.eqb_eq in Ht.
      unfold setTextSelection. cbn [tr_doc tr_docChanged].
      rewrite !Nat.min_l by (rewrite length_app, Hfrom; lia).
      set (pre := firstn (from e) (doc e)) in *.
      unfold extendMarkRange_link. cbn [tr_doc tr_from tr_to].
      rewrite <- Hfrom.
      rewrite getMarkRange_at_join.
      assert (H0 : (run_len (skipn (to e) (doc e)) + run_len (rev pre) =? 0)
                   = true)
        by (apply Nat.eqb_eq; lia).
      rewrite H0.
      unfold setLink_href, run. cbn [tr_doc tr_from tr_to doc from to].
      rewrite Nat.eqb_refl. cbn [tr_doc tr_from tr_to].
      unfold replaced_and_linked. cbn. auto.
    + apply negb_true_iff, Nat.eqb_neq in Ht.
      pose proof (link_after_insert (firstn (from e) (doc e)) []
                    (skipn (to e) (doc e)) href (from e) (from e) None
                    (Forall_nil _)) as H.
      cbn [List.length app] in H. rewrite !Nat.add_0_r, !Hfrom in H.
      rewrite H by lia. clear H.
      unfold run.
      cbn [tr_doc tr_from tr_to doc from to].
      pose proof (widened_pieces (doc e) (from e) (to e)
                    (run_len (rev (firstn (from e) (doc e))))
                    (run_len (skipn (to e) (doc e))) href []
                    Hbefore (Nat.lt_le_incl _ _ Hlt) Hto) as Hw.
      cbn [app map] in Hw. rewrite Hw. clear Hw.
      unfold widened_and_linked. cbn [cells map list_ascii_of_string app].
      repeat split; lia.
  - (* a non-empty display text *)
    set (n := String.length (String c text)).
    assert (Hn : 0 < n) by (unfold n; cbn; lia).
    destruct (across_link (doc e) (from e) (to e)) as [h|] eqn:Hacross;
      (split; intro Ht; [|]); try discriminate.
    + pose proof (link_after_insert (firstn (from e) (doc e))
                    (cells (Some h) (String c text))
                    (skipn (to e) (doc e)) href (from e + n) (from e + n)
                    None) as H.
      rewrite cells_length, !Hfrom in H. fold n in H.
      rewrite H; clear H.
      * unfold run. cbn [tr_doc tr_from tr_to doc from to].
        rewrite (widened_pieces (doc e) (from e) (to e) _ _ href) by lia.
        rewrite map_set_link_cells. unfold widened_and_linked.
        assert (Hafter : 0 < run_len (skipn (to e) (doc e))).
        { unfold across_link in Hacross.
          destruct (link_at (doc e) (from e)); [|discriminate].
          destruct (link_at (doc e) (to e)) as [k|] eqn:Hk;
            [|discriminate].
          exact (run_len_link_at _ _ _ Hk). }
        repeat split; lia.
      * unfold cells. apply Forall_map. apply Forall_forall.
        reflexivity.
      * lia.
    + unfold setTextSelection. cbn [tr_doc tr_from tr_to tr_docChanged].
      fold n.
      set (d1 := firstn (from e) (doc e) ++ cells None (String c text)
                   ++ skipn (to e) (doc e)).
      assert (Hlen : List.length d1
                     = from e + n + (List.length (doc e) - to e)).
      { unfold d1. rewrite !length_app, cells_length, length_skipn, Hfrom.
        fold n. lia. }
      rewrite !Nat.min_l by lia.
      pose proof (extend_after_plain_insert (firstn (from e) (doc e))
                    (skipn (to e) (doc e)) c text None true) as Hext.
      cbv zeta in Hext. rewrite Hfrom in Hext. fold n d1 in Hext.
      rewrite Hext.
      unfold setLink_href, run. cbn [tr_doc tr_from tr_to doc from to].
      assert (Hne2 : (from e =? from e + n) = false)
        by (apply Nat.eqb_neq; lia).
      rewrite Hne2. cbn [tr_doc tr_from tr_to].
      repeat split.
      unfold mark_range, slice, replaced_and_linked.
      assert (H1 : firstn (from e) d1 = firstn (from e) (doc e))
        by (apply firstn_app_len; exact Hfrom).
      assert (H2 : skipn (from e) d1
                   = cells None (String c text) ++ skipn (to e) (doc e))
        by (apply skipn_app_len; exact Hfrom).
      assert (H3 : skipn (from e + n) d1 = skipn (to e) (doc e)).
      { unfold d1. rewrite app_assoc. apply skipn_app_len.
        rewrite length_app, cells_length, Hfrom. reflexivity. }
      rewrite H1, H2, H3.
      replace (from e + n - from e) with n by lia.
      rewrite firstn_app_len by apply cells_length.
      now rewrite map_set_link_cells.
Qed.

Lemma C8_link_on_replacement_range_witness :
  doc (onInsert {| url := "https://x.test"; displayText := "Example" |}
         example_selected)
  = cells (Some "https://x.test"%string) "Example"
  /\ doc (onInsert {| url := "https://x.test"; displayText := "XY" |}
            across_links)
     = cells (Some "https://x.test"%string) "aXYf"
  /\ doc (onInsert {| url := "https://x.test"; displayText := EmptyString |}
            example_selected)
     = []
  /\ doc (onInsert {| url := "https://x.test"; displayText := EmptyString |}
            before_link)
     = cells (Some "https://x.test"%string) "cd".
Proof.
  split; [|split; [|split]].
  - refine (proj1 (proj1 (C8_link_on_replacement_range example_selected
                            "https://x.test" "Example" _ _ _) _)).
    + unfold well_formed. simpl. repeat split; lia.
    + simpl. lia.
    + discriminate.
    + reflexivity.
  - refine (proj1 (proj2 (C8_link_on_replacement_range across_links
                            "https://x.test" "XY" _ _ _) _)).
    + unfold well_formed. simpl. repeat split; lia.
    + simpl. lia.
    + discriminate.
    + reflexivity.
  - refine (proj1 (proj1 (C8_link_on_replacement_range example_selected
                            "https://x.test" EmptyString _ _ _) _)).
    + unfold well_formed. simpl. repeat split; lia.
    + simpl. lia.
    + discriminate.
    + reflexivity.
  - refine (proj1 (proj2 (C8_link_on_replacement_range before_link
                            "https://x.test" EmptyString _ _ _) _)).
    + unfold well_formed. simpl. repeat split; lia.
    + simpl. lia.
    + discriminate.
    + reflexivity.
Defined.

(** C9.  On every editor state the Undo button of a render of the
    toolbar is disabled exactly when the undo history is empty, which
    is exactly when the undo command does not apply; a disabled button
    leaves the editor as it is.  The render reads the current state: a
    new editor has the button disabled, and a chain that changed the
    document enables it. *)
Theorem C9_undo_disabled_iff_no_history (e : Editor) :
  (undo_disabled (Toolbar e) = true <-> done e = [])
  /\ (undo_disabled (Toolbar e) = true <-> undo e = None)
  /\ (undo_disabled (Toolbar e) = true -> clickUndo e = e)
  /\ (forall cmds,
        tr_docChanged (fold_left (fun t c => c t) cmds (begin e)) = true ->
        undo_disabled (Toolbar (chain e cmds)) = false)
  /\ (forall d, undo_disabled (Toolbar (useEditor d)) = true).
Proof.
  assert (Hd : undo_disabled (Toolbar e) = true <-> done e = []).
  { unfold Toolbar, can, undo. cbn [undo_disabled].
    destruct (done e) as [|[d [a b]] rest]; simpl; split; congruence. }
  assert (Hu : undo e = None <-> done e = []).
  { unfold undo.
    destruct (done e) as [|[d [a b]] rest]; split; congruence. }
  split; [exact Hd|]. split; [now rewrite Hu|].
  split; [|split].
  - intro H. unfold clickUndo. now rewrite H.
  - intros cmds Hch. unfold Toolbar, can, undo, chain, run.
    cbn [undo_disabled done]. rewrite Hch. reflexivity.
  - reflexivity.
Qed.









End EditorFacts.

(* ================================================================== *)
(** * What the url rule accepts                                        *)
(* ================================================================== *)

Section UrlRuleFacts.

Import Regex WorkModal Described.

Local Open Scope list_scope.

Lemma match_here_class (c : ascii -> bool) (lo : nat) (hi : option nat)
    (r : regex) (prev : option ascii) (s : list ascii) :
  match_here (Class c lo hi :: r) prev s
  = ((match lo with 0 => match_here r prev s | S _ => false end)
     || match s with
        | a :: s' =>
            may_take hi && c a
            && match_here (Class c (pred lo) (dec_hi hi) :: r) (Some a) s'
        | [] => false
        end)%bool.
Proof. destruct s; reflexivity. Qed.

Lemma match_here_boundary (r : regex) (prev : option ascii)
    (s : list ascii) :
  match_here (WordBoundary :: r) prev s
  = (boundary prev (hd_error s) && match_here r prev s)%bool.
Proof. reflexivity. Qed.

Lemma within_step (hi : option nat) (n : nat) :
  may_take hi = true -> within (dec_hi hi) n -> within hi (S n).
Proof.
  destruct hi as [[|h]|]; simpl; try discriminate; intros; lia.
Qed.

Lemma within_back (hi : option nat) (n : nat) :
  within hi (S n) -> may_take hi = true /\ within (dec_hi hi) n.
Proof.
  destruct hi as [[|h]|]; simpl; intros; split; auto; lia.
Qed.

(** A repeated class matches exactly when some run of its characters, of
    an allowed length, is followed by a match of the rest. *)
Lemma match_here_class_iff (c : ascii -> bool) (r : regex) (s : list ascii) :
  forall (lo : nat) (hi : option nat) (prev : option ascii),
  match_here (Class c lo hi :: r) prev s = true
  <-> exists x y,
        s = x ++ y /\ lo <= List.length x /\ within hi (List.length x)
        /\ forallb c x = true
        /\ match_here r (last_seen prev x) y = true.
Proof.
  induction s as [|a s IH]; intros lo hi prev; rewrite match_here_class.
  - rewrite orb_false_r. split.
    + destruct lo; [|discriminate]. intro H.
      exists [], []. repeat split; simpl; auto.
      destruct hi; simpl; lia.
    + intros (x & y & Hs & Hlo & _ & _ & Hm).
      symmetry in Hs. apply app_eq_nil in Hs as [-> ->].
      simpl in Hlo. destruct lo; [exact Hm|lia].
  - split.
    + intro H. apply orb_prop in H as [H|H].
      * destruct lo; [|discriminate].
        exists [], (a :: s). repeat split; simpl; auto.
        destruct hi; simpl; lia.
      * apply andb_prop in H as [H Hrec]. apply andb_prop in H as [Hhi Hc].
        apply IH in Hrec as (x & y & Hs & Hlo & Hw & Hx & Hm).
        exists (a :: x), y. subst s. simpl.
        repeat split; auto.
        -- lia.
        -- now apply within_step.
        -- now rewrite Hc.
    + intros (x & y & Hs & Hlo & Hw & Hx & Hm).
      destruct x as [|b x].
      * simpl in *. subst y. destruct lo; [|lia].
        now rewrite Hm.
      * simpl in Hs. injection Hs as <- ->.
        simpl in Hx. apply andb_prop in Hx as [Hc Hx].
        simpl in Hw. apply within_back in Hw as [Hhi Hw].
        apply orb_true_intro. right.
        rewrite Hhi, Hc. cbn [andb].
        apply IH. exists x, y. repeat split; auto.
        simpl in Hlo. lia.
Qed.

(** The search finds a match exactly when the pattern matches at some
    position of the string. *)
Lemma search_iff (r : regex) (s : list ascii) : forall prev,
  search r prev s = true
  <-> exists p q, s = p ++ q /\ match_here r (last_seen prev p) q = true.
Proof.
  induction s as [|a s IH]; intro prev; simpl.
  - rewrite orb_false_r. split.
    + intro H. exists [], []. auto.
    + intros (p & q & Hs & Hm).
      symmetry in Hs. apply app_eq_nil in Hs as [-> ->]. exact Hm.
  - split.
    + intro H. apply orb_prop in H as [H|H].
      * exists [], (a :: s). auto.
      * apply IH in H as (p & q & -> & Hm).
        exists (a :: p), q. auto.
    + intros (p & q & Hs & Hm). apply orb_true_intro.
      destruct p as [|b p].
      * left. simpl in *. now subst q.
      * right. simpl in Hs. injection Hs as <- ->.
        apply IH. exists p, q. auto.
Qed.

Lemma last_seen_app (prev : option ascii) (x : list ascii) (a : ascii) :
  last_seen prev (x ++ [a]) = Some a.
Proof. unfold last_seen. now rewrite fold_left_app. Qed.

Lemma last_seen_nonempty (p q : option ascii) (x : list ascii) :
  x <> [] -> last_seen p x = last_seen q x.
Proof.
  intro Hx. destruct (exists_last Hx) as (x' & a & ->).
  now rewrite !last_seen_app.
Qed.

Lemma forallb_dot (x : list ascii) :
  List.length x = 1 -> forallb (Ascii.eqb ".") x = true -> x = ["."%char].
Proof.
  destruct x as [|a [|b x]]; cbn [List.length forallb]; try discriminate.
  intros _ H. rewrite andb_true_r in H.
  apply Ascii.eqb_eq in H. now subst a.
Qed.

(** The pattern matches at a position exactly when a run of the first
    class, a dot and one to six characters of the second class followed
    by a word boundary start there. *)
Lemma match_here_url_pattern (prev : option ascii) (s : list ascii) :
  match_here url_pattern prev s = true
  <-> exists x tld post,
        s = x ++ "."%char :: tld ++ post
        /\ 1 <= List.length x <= 256 /\ forallb url_head x = true
        /\ 1 <= List.length tld <= 6 /\ forallb url_tld tld = true
        /\ boundary (last_seen None tld) (hd_error post) = true.
Proof.
  unfold url_pattern. rewrite match_here_class_iff. split.
  - intros (x & y & -> & Hlo & Hhi & Hx & Hm).
    apply match_here_class_iff in Hm
      as (d & y1 & -> & Hdlo & Hdhi & Hd & Hm).
    simpl in Hdhi.
    assert (Hd1 : d = ["."%char]) by (apply forallb_dot; [lia|exact Hd]).
    subst d.
    apply match_here_class_iff in Hm
      as (tld & post & -> & Htlo & Hthi & Ht & Hm).
    rewrite match_here_boundary in Hm. apply andb_prop in Hm as [Hb _].
    exists x, tld, post. simpl in Hhi, Hthi.
    repeat split; auto.
    assert (Hne : tld <> []) by (intros ->; simpl in Htlo; lia).
    rewrite (last_seen_nonempty None
               (last_seen (last_seen prev x) ["."%char]) tld Hne).
    exact Hb.
  - intros (x & tld & post & -> & [Hlo Hhi] & Hx & [Htlo Hthi] & Ht & Hb).
    assert (Hne : tld <> []) by (intros ->; simpl in Htlo; lia).
    exists x, ("."%char :: tld ++ post).
    split; [reflexivity|]. split; [exact Hlo|]. split; [exact Hhi|].
    split; [exact Hx|].
    apply match_here_class_iff. exists ["."%char], (tld ++ post).
    split; [reflexivity|]. split; [apply le_n|]. split; [apply le_n|].
    split; [reflexivity|].
    apply match_here_class_iff. exists tld, post.
    split; [reflexivity|]. split; [exact Htlo|]. split; [exact Hthi|].
    split; [exact Ht|].
    rewrite match_here_boundary. apply andb_true_intro. split.
    + rewrite (last_seen_nonempty
                 (last_seen (last_seen prev x) ["."%char]) None tld Hne).
      exact Hb.
    + apply match_here_class_iff. exists [], post.
      split; [reflexivity|]. split; [apply le_n|]. split; [exact I|].
      split; reflexivity.
Qed.

Lemma list_test_url_shape (l : list ascii) :
  search url_pattern None l = true <-> url_shape l.
Proof.
  rewrite search_iff. unfold url_shape. split.
  - intros (p & q & -> & Hm).
    apply match_here_url_pattern in Hm
      as (x & tld & post & -> & [Hlo Hhi] & Hx & Htl & Ht & Hb).
    assert (Hne : x <> []) by (intros ->; simpl in Hlo; lia).
    destruct (exists_last Hne) as (x' & a & ->).
    rewrite forallb_app in Hx. apply andb_prop in Hx as [_ Ha].
    simpl in Ha. rewrite andb_true_r in Ha.
    exists (p ++ x'), a, tld, post.
    split; [now rewrite <- !app_assoc|auto].
  - intros (pre & a & tld & post & -> & Ha & Htl & Ht & Hb).
    exists pre, (a :: "."%char :: tld ++ post). split; [reflexivity|].
    apply match_here_url_pattern.
    exists [a], tld, post. repeat split; simpl; auto; try lia.
    now rewrite Ha.
Qed.

Lemma list_ascii_of_string_app (p s : string) :
  list_ascii_of_string (p ++ s)
  = list_ascii_of_string p ++ list_ascii_of_string s.
Proof. induction p as [|a p IH]; simpl; congruence. Qed.

Lemma url_rule_shape_accepted (s : string) :
  url_shape (list_ascii_of_string s) ->
  joi_string_pattern_allow_empty url_pattern s = [].
Proof.
  intro H. apply joi_url_ok. right. unfold test.
  now apply list_test_url_shape.
Qed.

(** X1.  The url rule accepts exactly the empty string and the strings
    that hold, anywhere, a character of the first class, a dot, and one
    to six characters of the second class ending at a word boundary. *)
Theorem url_rule_accepts_shape (s : string) :
  joi_string_pattern_allow_empty url_pattern s = []
  <-> s = EmptyString \/ url_shape (list_ascii_of_string s).
Proof.
  rewrite joi_url_ok. unfold test. now rewrite list_test_url_shape.
Qed.

(** X2.  The url rule is blind to what precedes a match: a string the
    pattern accepts is still accepted after any text is put before it,
    and every non-empty accepted string holds a dot. *)
Theorem url_rule_prefix_closed (p s : string) :
  test url_pattern s = true ->
  test url_pattern (p ++ s) = true
  /\ joi_string_pattern_allow_empty url_pattern (p ++ s) = []
  /\ In "."%char (list_ascii_of_string s).
Proof.
  unfold test. rewrite !list_test_url_shape.
  intros (pre & a & tld & post & Hs & Ha & Htl & Ht & Hb).
  assert (Hshape : url_shape (list_ascii_of_string (p ++ s)%string)).
  { exists (list_ascii_of_string p ++ pre), a, tld, post.
    repeat split; try tauto.
    rewrite list_ascii_of_string_app, Hs, <- app_assoc. reflexivity. }
  split; [exact Hshape|]. split.
  - apply url_rule_shape_accepted. exact Hshape.
  - rewrite Hs. apply in_or_app. right. right. left. reflexivity.
Qed.

Lemma url_rule_prefix_closed_witness :
  test url_pattern "not a url, but example.com" = true.
Proof.
  exact (proj1 (url_rule_prefix_closed "not a url, but " "example.com"
                  eq_refl)).
Defined.

End UrlRuleFacts.

(* ================================================================== *)
(** * More on the Work modal                                            *)
(* ================================================================== *)

Section WorkModalMore.

Import Regex WorkModal Examples Described.

Local Open Scope list_scope.

Lemma in_at_field (f : Field) (e : JoiError) (es : list JoiError) :
  In e es -> In (f, e) (at_field f es).
Proof. intro H. unfold at_field. now apply (in_map (fun x => (f, x))). Qed.

Lemma at_field_inv (f g : Field) (e : JoiError) (es : list JoiError) :
  In (g, e) (at_field f es) -> g = f.
Proof.
  unfold at_field. intro H. apply in_map_iff in H as (x & Hx & _).
  congruence.
Qed.

(** X3.  A submit with an empty name, or an empty position, dispatches
    nothing and leaves the store as it is, and the errors kept for
    display hold the empty-string error of that field. *)
Theorem required_field_error (w : Modal) :
  name (formValues w) = EmptyString \/ position (formValues w) = EmptyString ->
  store (clickSubmit w) = store w
  /\ new_actions w (clickSubmit w) = []
  /\ (name (formValues w) = EmptyString ->
      In (f_name, string_empty) (errors (handleSubmit onSubmit w)))
  /\ (position (formValues w) = EmptyString ->
      In (f_position, string_empty) (errors (handleSubmit onSubmit w))).
Proof.
  intro Hreq.
  assert (Hin : (name (formValues w) = EmptyString ->
                 In (f_name, string_empty) (schema (formValues w)))
                /\ (position (formValues w) = EmptyString ->
                    In (f_position, string_empty) (schema (formValues w)))).
  { unfold schema. split; intro H; rewrite H.
    - apply in_or_app. right. apply in_or_app. left.
      apply in_at_field. left. reflexivity.
    - apply in_or_app. right. apply in_or_app. right.
      apply in_or_app. left. apply in_at_field. left. reflexivity. }
  assert (Hbad : schema (formValues w) <> []).
  { intro Hs. rewrite Hs in Hin. destruct Hin as [Hn Hp].
    destruct Hreq as [H|H]; [exact (Hn H)|exact (Hp H)]. }
  rewrite store_clickSubmit, new_actions_clickSubmit.
  unfold handleSubmit.
  destruct (schema (formValues w)) as [|e es] eqn:Hs; [congruence|].
  cbn [errors]. tauto.
Qed.

Lemma required_field_error_witness :
  In (f_name, string_empty) (errors (handleSubmit onSubmit name_missing))
  /\ new_actions name_missing (clickSubmit name_missing) = [].
Proof.
  destruct (required_field_error name_missing (or_introl eq_refl))
    as (_ & Hnone & Hname & _).
  split; [exact (Hname eq_refl)|exact Hnone].
Defined.

Lemma failed_submit_state (P : FormData -> Prop) (w : Modal) :
  reachable P w ->
  schema (formValues w) <> [] ->
  clickSubmit w
  = {| store := store w; formValues := formValues w;
       errors := schema (formValues w); effectItem := effectItem w |}.
Proof.
  intros Hr Hbad.
  destruct (reachable_inv P w Hr) as [Heff _].
  unfold clickSubmit, handleSubmit.
  destruct (schema (formValues w)) as [|e es]; [congruence|].
  apply useEffect_synced. exact Heff.
Qed.

(** X4.  In every reachable state a submit that fails validation keeps
    the modal as it is, open and with the values typed so far: only the
    errors change, to those of the schema. *)
Theorem failed_submit_keeps_form (P : FormData -> Prop) (w : Modal) :
  reachable P w ->
  schema (formValues w) <> [] ->
  clickSubmit w
  = {| store := store w; formValues := formValues w;
       errors := schema (formValues w); effectItem := effectItem w |}.
Proof. exact (failed_submit_state P w). Qed.

Lemma failed_submit_keeps_form_witness :
  formValues (clickSubmit name_missing) = formValues name_missing
  /\ isOpen (clickSubmit name_missing) = true.
Proof.
  assert (Hr : reachable any_item name_missing).
  { eapply reach_step; [eapply reach_step; [apply reach_mount|]|].
    - apply (step_open any_item None mount eq_refl). discriminate.
    - apply step_text. reflexivity. }
  rewrite (failed_submit_keeps_form any_item name_missing Hr
             ltac:(discriminate)).
  split; reflexivity.
Defined.

(** ** The trace of dispatched actions *)

Lemma dispatched_openModal (p : option FormData) (w : Modal) :
  dispatched (store (openModal p w))
  = dispatched (store w)
      ++ [setModalState modal_key {| open := true; payload := p |}].
Proof. unfold openModal. rewrite store_useEffect. reflexivity. Qed.

Lemma dispatched_clickClose (w : Modal) :
  dispatched (store (clickClose w))
  = dispatched (store w) ++ [setModalState modal_key closed_state].
Proof.
  destruct (close_facts w) as (_ & _ & _ & Hst & _). now rewrite Hst.
Qed.

Lemma dispatched_clickSubmit (w : Modal) :
  dispatched (store (clickSubmit w))
  = dispatched (store w)
      ++ match schema (formValues w) with
         | [] =>
             [ if isEditMode w then editItem items_path (formValues w)
               else addItem items_path (formValues w);
               setModalState modal_key closed_state ]
         | _ :: _ => []
         end.
Proof.
  rewrite store_clickSubmit.
  destruct (schema (formValues w)).
  - cbn [reducer dispatched]. now rewrite <- app_assoc.
  - now rewrite app_nil_r.
Qed.

Lemma store_pickDate (f : DateInput) (d : JsDate.Date) (k : option string)
    (w : Modal) :
  store (pickDate f d k w) = store w.
Proof. apply datePickerOnChange_keeps. reflexivity. Qed.

(** What a step adds to the trace: nothing, a modal state, or the
    add-or-edit action of a valid form followed by the closing. *)
Lemma step_dispatched (P : FormData -> Prop) (w w' : Modal) :
  step P w w' ->
  exists l,
    dispatched (store w') = dispatched (store w) ++ l
    /\ forall a v, In a l -> item_value a = Some v ->
         v = formValues w /\ schema v = []
         /\ a = (if isEditMode w then editItem items_path v
                 else addItem items_path v).
Proof.
  intros [p w0 Hc Hp|f s w0 Ho|f d k w0 Ho|w0 Ho|w0 Ho].
  - eexists. split; [apply dispatched_openModal|].
    intros a v [<-|[]]. discriminate.
  - exists []. split; [now rewrite app_nil_r|]. intros a v [].
  - exists []. rewrite store_pickDate.
    split; [now rewrite app_nil_r|]. intros a v [].
  - eexists. split; [apply dispatched_clickSubmit|].
    destruct (schema (formValues w0)) eqn:Hs; [|intros a v []].
    intros a v [<-|[<-|[]]]; [|discriminate].
    destruct (isEditMode w0); cbn [item_value]; intro E;
      injection E as <-; auto.
  - eexists. split; [apply dispatched_clickClose|].
    intros a v [<-|[]]. discriminate.
Qed.

(** X5.  In every reachable state, every record that an add or edit
    action of the trace carries passes the schema: the modal never
    dispatches an invalid record. *)
Theorem dispatched_records_valid (P : FormData -> Prop) (w : Modal)
    (a : Action) (v : FormData) :
  reachable P w ->
  In a (dispatched (store w)) ->
  item_value a = Some v ->
  schema v = [].
Proof.
  intro Hr. revert a v.
  induction Hr as [|w w' Hr IH Hstep]; intros a v Hin Hv.
  - destruct Hin.
  - destruct (step_dispatched P w w' Hstep) as (l & Hd & Hl).
    rewrite Hd in Hin. apply in_app_or in Hin as [Hin|Hin].
    + exact (IH a v Hin Hv).
    + exact (proj1 (proj2 (Hl a v Hin Hv))).
Qed.

Lemma reachable_add_filled : reachable any_item add_filled.
Proof.
  unfold add_filled.
  eapply reach_step; [eapply reach_step; [eapply reach_step|]|].
  - apply reach_mount.
  - apply (step_open any_item None mount eq_refl). discriminate.
  - apply step_text. reflexivity.
  - apply step_text. reflexivity.
Qed.

Lemma dispatched_records_valid_witness :
  schema (formValues add_filled) = [].
Proof.
  refine (dispatched_records_valid any_item (clickSubmit add_filled)
            (addItem items_path (formValues add_filled))
            (formValues add_filled) _ _ eq_refl).
  - eapply reach_step; [apply reachable_add_filled|].
    apply step_submit. reflexivity.
  - right. left. reflexivity.
Defined.

(** The identifier held by the form is that of the payload item, and
    none without one; payload items are those the modal was opened on. *)
Lemma reachable_identifier (P : FormData -> Prop) (w : Modal) :
  reachable P w ->
  id (formValues w) = match item w with Some i => id i | None => None end
  /\ (forall i, item w = Some i -> P i).
Proof.
  induction 1 as [|w w' Hr IH Hstep].
  - split; [reflexivity|discriminate].
  - pose proof (reachable_inv _ w Hr) as Hinv.
    destruct IH as [IHid IHP].
    destruct Hstep as [p w Hc Hp|f s w Ho|f d k w Ho|w Ho|w Ho].
    + destruct (openModal_from_closed w p Hinv Hc) as [Hf Hi].
      rewrite Hf, Hi. split; [destruct p; reflexivity|exact Hp].
    + unfold typeText, item. cbn [formValues store].
      rewrite id_setText. split; assumption.
    + assert (Hid : id (formValues (pickDate f d k w)) = id (formValues w)).
      { unfold pickDate.
        apply (datePickerOnChange_keeps (fun x => id (formValues x))).
        intros s x. cbn [date_onChange formValues]. apply id_setDate. }
      unfold item. rewrite Hid, store_pickDate. split; assumption.
    + destruct (schema (formValues w)) as [|e es] eqn:Hs.
      * rewrite (clickSubmit_valid w Hs).
        match goal with |- context [clickClose ?x] => set (w1 := x) end.
        destruct (close_facts w1) as (Hf & _ & _ & Hst & _).
        destruct (isOpen_closed _ _ Hst) as [_ Hi].
        rewrite Hf, Hi. split; [reflexivity|discriminate].
      * rewrite (failed_submit_state P w Hr).
        -- split; assumption.
        -- now rewrite Hs.
    + destruct (close_facts w) as (Hf & _ & _ & Hst & _).
      destruct (isOpen_closed _ _ Hst) as [_ Hi].
      rewrite Hf, Hi. split; [reflexivity|discriminate].
Qed.

(** X6.  In every reachable state the trace holds only actions of these
    shapes: modal states under the modal's key, add actions on the items
    path whose record has no identifier, and edit actions on the items
    path whose record has the identifier of an item the modal was opened
    on.  The form cannot change the identifier. *)
Theorem dispatched_identifiers (P : FormData -> Prop) (w : Modal)
    (a : Action) :
  reachable P w ->
  In a (dispatched (store w)) ->
  match a with
  | setModalState k _ => k = modal_key
  | addItem p v => p = items_path /\ id v = None
  | editItem p v => p = items_path /\ exists i, P i /\ id v = id i
  end.
Proof.
  intro Hr. revert a.
  induction Hr as [|w w' Hr IH Hstep]; intros a Hin.
  - destruct Hin.
  - destruct (reachable_identifier P w Hr) as [Hid HP].
    assert (Hnew : forall b,
      In b (match schema (formValues w) with
            | [] => [ if isEditMode w
                      then editItem items_path (formValues w)
                      else addItem items_path (formValues w);
                      setModalState modal_key closed_state ]
            | _ :: _ => []
            end) ->
      match b with
      | setModalState k _ => k = modal_key
      | addItem p v => p = items_path /\ id v = None
      | editItem p v => p = items_path /\ exists i, P i /\ id v = id i
      end).
    { intros b Hb. destruct (schema (formValues w)); [|destruct Hb].
      destruct Hb as [<-|[<-|[]]]; [|reflexivity].
      unfold isEditMode. destruct (item w) as [i|] eqn:Hi.
      - split; [reflexivity|]. exists i. split; [now apply HP|exact Hid].
      - split; [reflexivity|exact Hid]. }
    destruct Hstep as [p w Hc Hp|f s w Ho|f d k w Ho|w Ho|w Ho].
    + rewrite dispatched_openModal in Hin.
      apply in_app_or in Hin as [Hin|[<-|[]]]; [now apply IH|reflexivity].
    + now apply IH.
    + rewrite store_pickDate in Hin. now apply IH.
    + rewrite dispatched_clickSubmit in Hin.
      apply in_app_or in Hin as [Hin|Hin]; [now apply IH|now apply Hnew].
    + rewrite dispatched_clickClose in Hin.
      apply in_app_or in Hin as [Hin|[<-|[]]]; [now apply IH|reflexivity].
Qed.

Lemma dispatched_identifiers_witness :
  items_path = items_path /\ id (formValues add_filled) = None.
Proof.
  refine (dispatched_identifiers any_item (clickSubmit add_filled)
            (addItem items_path (formValues add_filled)) _ _).
  - eapply reach_step; [apply reachable_add_filled|].
    apply step_submit. reflexivity.
  - right. left. reflexivity.
Defined.

(** X7.  The schema puts no rule on the content of the date fields and
    of the summary: replacing them by any string leaves the outcome of
    the validation as it is, and errors only ever concern the
    identifier, the name, the position and the url. *)
Theorem schema_ignores_dates_and_summary (v : FormData) (f : DateInput)
    (s : string) :
  schema (setDate f s v) = schema v
  /\ schema (setText i_summary s v) = schema v
  /\ (forall g e, In (g, e) (schema v) ->
        g = f_id \/ g = f_name \/ g = f_position \/ g = f_url).
Proof.
  split; [destruct f; reflexivity|]. split; [reflexivity|].
  intros g e Hin. unfold schema, joi_string_allow_empty in Hin.
  cbn [at_field map app] in Hin.
  repeat (apply in_app_or in Hin as [Hin|Hin];
          [apply at_field_inv in Hin; subst g; tauto|]).
  destruct Hin.
Qed.

Lemma getDate_setDate_other (f g : DateInput) (s : string) (v : FormData) :
  g <> f -> getDate g (setDate f s v) = getDate g v.
Proof. destruct f, g; intro H; try reflexivity; congruence. Qed.

(** X8.  A change event of a date picker touches at most its own date
    field: the store, the errors, the identifier, the text fields and
    the other date field are as before. *)
Theorem pickDate_local (f : DateInput) (d : JsDate.Date)
    (k : option string) (w : Modal) :
  store (pickDate f d k w) = store w
  /\ errors (pickDate f d k w) = errors w
  /\ setDate f (getDate f (formValues w)) (formValues (pickDate f d k w))
     = formValues w
  /\ (forall g, g <> f ->
        getDate g (formValues (pickDate f d k w)) = getDate g (formValues w)).
Proof.
  split; [apply store_pickDate|].
  split; [apply datePickerOnChange_keeps; reflexivity|].
  split.
  - unfold pickDate.
    rewrite (datePickerOnChange_keeps
               (fun x => setDate f (getDate f (formValues w)) (formValues x))).
    + destruct f, (formValues w) as [i n p [ds de] u sm]; reflexivity.
    + intros s x. cbn [date_onChange formValues].
      destruct f; reflexivity.
  - intros g Hg. unfold pickDate.
    apply (datePickerOnChange_keeps (fun x => getDate g (formValues x))).
    intros s x. cbn [date_onChange formValues].
    now apply getDate_setDate_other.
Qed.

(** X9.  Closing the modal dispatches one action, the closing itself,
    and no add or edit: what was typed is discarded, and the
    next open on an item shows the values of that item. *)
Theorem cancel_discards (w : Modal) (i : FormData) :
  new_actions w (clickClose w) = [setModalState modal_key closed_state]
  /\ formValues (openModal (Some i) (clickClose w)) = i
  /\ formValues (openModal None (clickClose w)) = defaultState.
Proof.
  destruct (close_facts w) as (_ & _ & _ & Hst & Hnone).
  destruct (isOpen_closed _ _ Hst) as [Hopen _].
  split.
  - unfold new_actions. rewrite dispatched_clickClose.
    apply skipn_length_app.
  - split; [|exact Hnone].
    exact (proj1 (openModal_from_closed (clickClose w) (Some i)
                    (modal_inv_closed w) Hopen)).
Qed.

End WorkModalMore.

(* ================================================================== *)
(** * More on the link sub-form and [setLink]                           *)
(* ================================================================== *)

Section EditorMore.

Import TipTap RichInput Examples Described.

Local Open Scope list_scope.

(** The selection-replacement branch on a replacement that inherits no
    link mark, and the empty-URL submit on a covered selection, as
    lemmas to compose. *)
Lemma setLink_replaces_selection (e : Editor) (href text : string) :
  well_formed e ->
  from e < to e ->
  href <> EmptyString ->
  text <> EmptyString ->
  across_link (doc e) (from e) (to e) = None ->
  let e' := onInsert {| url := href; displayText := text |} e in
  doc e' = replaced_and_linked e href text
  /\ from e' = from e
  /\ to e' = from e + String.length text.
Proof.
  intros (_ & Hto & Hst) Hlt Hhref Htext Hacross.
  specialize (Hst Hlt).
  destruct text as [|c text]; [congruence|].
  assert (Hfrom : List.length (firstn (from e) (doc e)) = from e)
    by (apply firstn_length_le; lia).
  unfold onInsert, setLink, replaced_and_linked.
  cbn [url displayText].
  apply String.eqb_neq in Hhref. rewrite Hhref.
  assert (Hne : (from e =? to e) = false) by (apply Nat.eqb_neq; lia).
  rewrite Hne.
  unfold chain. cbn [fold_left].
  unfold insertContentAt, insertText_at, insertion_link, begin.
  cbn [tr_doc tr_from tr_to tr_storedMarks tr_docChanged].
  rewrite Hst, Hne, Hacross.
  unfold setTextSelection. cbn [tr_doc tr_from tr_to tr_docChanged].
  set (n := String.length (String c text)).
  set (d1 := firstn (from e) (doc e) ++ cells None (String c text)
               ++ skipn (to e) (doc e)).
  assert (Hlen : List.length d1 = from e + n + (List.length (doc e) - to e)).
  { unfold d1. rewrite !length_app, cells_length, length_skipn, Hfrom.
    fold n. lia. }
  rewrite !Nat.min_l by lia.
  unfold focus.
  pose proof (extend_after_plain_insert (firstn (from e) (doc e))
                (skipn (to e) (doc e)) c text None true) as Hext.
  cbv zeta in Hext. rewrite Hfrom in Hext. fold n d1 in Hext.
  rewrite Hext.
  unfold setLink_href, run. cbn [tr_doc tr_from tr_to doc from to].
  assert (Hne2 : (from e =? from e + n) = false).
  { apply Nat.eqb_neq. unfold n. simpl. lia. }
  rewrite Hne2. cbn [tr_doc tr_from tr_to].
  repeat split.
  unfold mark_range, slice.
  assert (H1 : firstn (from e) d1 = firstn (from e) (doc e))
    by (apply firstn_app_len; exact Hfrom).
  assert (H2 : skipn (from e) d1
               = cells None (String c text) ++ skipn (to e) (doc e))
    by (apply skipn_app_len; exact Hfrom).
  assert (H3 : skipn (from e + n) d1 = skipn (to e) (doc e)).
  { unfold d1. rewrite app_assoc. apply skipn_app_len.
    rewrite length_app, cells_length, Hfrom. reflexivity. }
  rewrite H1, H2, H3.
  replace (from e + n - from e) with n by lia.
  rewrite firstn_app_len by apply cells_length.
  now rewrite map_set_link_cells.
Qed.

Lemma submit_empty_url_replaces (e : Editor) (text : string) (a b : nat) :
  well_formed e ->
  link_covers e a b ->
  doc (submitLinkForm {| url := EmptyString; displayText := text |} e)
  = firstn a (doc e) ++ cells None text ++ skipn b (doc e)
  /\ Forall (fun c => link c = None) (cells None text)
  /\ Forall linked (slice a b (doc e))
  /\ a <= from e /\ to e <= b.
Proof.
  intros (Hft & Hto & _) Hcov.
  assert (Hp : from e <= List.length (doc e)) by lia.
  pose proof Hcov as (_ & Hr & Htb).
  pose proof (getMarkRange_idem _ _ _ _ Hp Hr) as Hidem.
  destruct (getMarkRange_shape _ _ _ _ Hp Hr)
    as (pre & mid & post & Hd & Ha & Hb & [Hap _] & Hab & Hrun & _).
  assert (Hble : b <= List.length (doc e)).
  { rewrite Hd, <- Hb, !length_app. lia. }
  repeat split; try assumption.
  - unfold submitLinkForm, onInsert.
    rewrite (InsertLinkForm_extends e a b Hcov Hp).
    unfold setLink. cbn [url displayText from to String.eqb].
    unfold chain. cbn [fold_left]. unfold focus at 1.
    match goal with |- context [extendMarkRange_link ?t] =>
      rewrite (extend_covered t a b Hidem (le_n _) (le_n _))
    end.
    unfold begin, unsetLink.
    cbn [doc tr_doc tr_from tr_to tr_docChanged].
    assert (Hne : (a =? b) = false) by (apply Nat.eqb_neq; lia).
    rewrite Hne.
    destruct (mark_range_outside None a b (doc e) ltac:(lia) Hble)
      as [Hfst Hskp].
    unfold insertContentAt, insertText_at, run.
    destruct text as [|c text].
    + assert (Hlt : (a <? b) = true) by (apply Nat.ltb_lt; lia).
      rewrite Hlt. cbn [doc tr_doc]. now rewrite Hfst, Hskp.
    + cbn [doc tr_doc]. unfold insertion_link. cbn [tr_storedMarks].
      now rewrite Hfst, Hskp.
  - unfold cells. apply Forall_map. apply Forall_forall. reflexivity.
  - replace (slice a b (doc e)) with mid; [exact Hrun|].
    unfold slice. rewrite Hd, <- Ha, <- Hb.
    rewrite skipn_length_app, length_app.
    replace (List.length pre + List.length mid - List.length pre)
      with (List.length mid) by lia.
    now rewrite firstn_length_app.
Qed.

(** ** Bounds and characters through the commands *)

Lemma slice_rest (a b : nat) (d : Doc) :
  a <= b -> slice a b d ++ skipn b d = skipn a d.
Proof.
  intro Hab. unfold slice.
  replace (skipn b d) with (skipn (b - a) (skipn a d)).
  - apply firstn_skipn.
  - rewrite skipn_skipn. f_equal. lia.
Qed.

Lemma text_of_mark_range (m : option string) (a b : nat) (d : Doc) :
  a <= b -> text_of (mark_range m a b d) = text_of d.
Proof.
  intro Hab. unfold text_of, mark_range.
  rewrite !map_app, map_map. cbn [set_link ch].
  rewrite <- !map_app. f_equal.
  rewrite slice_rest by exact Hab. apply firstn_skipn.
Qed.

Lemma length_text_of (d : Doc) : List.length (text_of d) = List.length d.
Proof. apply length_map. Qed.

Lemma length_mark_range (m : option string) (a b : nat) (d : Doc) :
  a <= b -> List.length (mark_range m a b d) = List.length d.
Proof.
  intro Hab. rewrite <- !length_text_of.
  now rewrite text_of_mark_range.
Qed.

Lemma getMarkRange_bounds (d : Doc) (p a b : nat) :
  p <= List.length d ->
  getMarkRange d p = Some (a, b) ->
  a <= p /\ p <= b /\ a < b /\ b <= List.length d.
Proof.
  intros Hp H.
  destruct (getMarkRange_shape d p a b Hp H)
    as (pre & mid & post & Hd & Ha & Hb & [H1 H2] & Hab & _).
  repeat split; auto.
  rewrite Hd, <- Hb, !length_app. lia.
Qed.

Lemma extend_facts (t : Tr) :
  in_bounds t ->
  in_bounds (extendMarkRange_link t)
  /\ tr_doc (extendMarkRange_link t) = tr_doc t
  /\ tr_docChanged (extendMarkRange_link t) = tr_docChanged t.
Proof.
  intros [Hft Hto]. unfold extendMarkRange_link.
  destruct (getMarkRange (tr_doc t) (tr_from t)) as [[a b]|] eqn:Hr;
    [|repeat split; assumption].
  destruct ((a <=? tr_from t) && (tr_to t <=? b))%bool;
    [|repeat split; assumption].
  destruct (getMarkRange_bounds (tr_doc t) (tr_from t) a b ltac:(lia) Hr)
    as (_ & _ & Hab & Hb).
  unfold in_bounds. cbn. repeat split; lia.
Qed.

Lemma unsetLink_facts (t : Tr) :
  in_bounds t ->
  in_bounds (unsetLink t)
  /\ text_of (tr_doc (unsetLink t)) = text_of (tr_doc t)
  /\ tr_from (unsetLink t) = tr_from t /\ tr_to (unsetLink t) = tr_to t.
Proof.
  intros [Hft Hto]. unfold unsetLink.
  set (r := if tr_from t =? tr_to t
            then match getMarkRange (tr_doc t) (tr_from t) with
                 | Some r => r
                 | None => (tr_from t, tr_to t)
                 end
            else (tr_from t, tr_to t)).
  assert (Hr : fst r <= snd r).
  { subst r. destruct (tr_from t =? tr_to t); [|exact Hft].
    destruct (getMarkRange (tr_doc t) (tr_from t)) as [[a b]|] eqn:E;
      [|exact Hft].
    destruct (getMarkRange_bounds (tr_doc t) (tr_from t) a b ltac:(lia) E)
      as (_ & _ & Hab & _).
    cbn. lia. }
  destruct r as [a b]. cbn [fst snd] in Hr.
  cbn [tr_doc tr_from tr_to]. unfold in_bounds. cbn [tr_doc tr_from tr_to].
  rewrite length_mark_range, text_of_mark_range by exact Hr.
  repeat split; assumption.
Qed.

Lemma setLink_href_facts (href : string) (t : Tr) :
  in_bounds t ->
  in_bounds (setLink_href href t)
  /\ text_of (tr_doc (setLink_href href t)) = text_of (tr_doc t)
  /\ tr_from (setLink_href href t) = tr_from t
  /\ tr_to (setLink_href href t) = tr_to t.
Proof.
  intros [Hft Hto]. unfold setLink_href, in_bounds.
  destruct (tr_from t =? tr_to t); cbn [tr_doc tr_from tr_to].
  - repeat split; assumption.
  - rewrite length_mark_range, text_of_mark_range by exact Hft.
    repeat split; assumption.
Qed.

Lemma setTextSelection_facts (a b : nat) (t : Tr) :
  a <= b ->
  in_bounds (setTextSelection a b t)
  /\ tr_doc (setTextSelection a b t) = tr_doc t.
Proof.
  intro Hab. unfold setTextSelection, in_bounds. cbn [tr_doc tr_from tr_to].
  repeat split; lia.
Qed.

Lemma insertText_at_facts (a b : nat) (text : string) (t : Tr) :
  in_bounds t -> a <= b -> b <= List.length (tr_doc t) ->
  in_bounds (insertText_at a b text t)
  /\ text_of (tr_doc (insertText_at a b text t))
     = firstn a (text_of (tr_doc t)) ++ list_ascii_of_string text
         ++ skipn b (text_of (tr_doc t)).
Proof.
  intros Hin Hab Hb. unfold insertText_at, in_bounds, text_of.
  destruct text as [|c text].
  - destruct (a <? b) eqn:E; cbn [tr_doc tr_from tr_to list_ascii_of_string app].
    + rewrite map_app, firstn_map, skipn_map, length_app, length_skipn.
      rewrite firstn_length_le by lia. repeat split; lia.
    + apply Nat.ltb_ge in E. assert (a = b) by lia. subst b.
      split; [exact Hin|].
      now rewrite firstn_skipn.
  - cbn [tr_doc tr_from tr_to].
    rewrite !map_app, firstn_map, skipn_map, !length_app, length_skipn.
    rewrite firstn_length_le by lia. rewrite cells_length.
    split; [split; lia|].
    unfold cells. rewrite map_map. cbn [ch]. now rewrite map_id.
Qed.

Lemma run_well_formed (e : Editor) (t : Tr) :
  in_bounds t -> well_formed (run e t).
Proof.
  intros [Hft Hto]. unfold well_formed, run. cbn.
  repeat split; try assumption.
  intro Hlt. assert (E : (tr_from t =? tr_to t) = false)
    by (apply Nat.eqb_neq; lia).
  now rewrite E.
Qed.

Lemma begin_in_bounds (e : Editor) : well_formed e -> in_bounds (begin e).
Proof. intros (H1 & H2 & _). split; assumption. Qed.

Lemma InsertLinkForm_keeps_bounds (e : Editor) :
  well_formed e -> well_formed (fst (InsertLinkForm e)).
Proof.
  intro Hwf. unfold InsertLinkForm. cbn [fst].
  destruct (truthy (getAttributes_link_href e)); [|exact Hwf].
  unfold chain. cbn [fold_left]. apply run_well_formed.
  apply extend_facts. now apply begin_in_bounds.
Qed.

Lemma setLink_keeps_bounds (href text : string) (e : Editor) :
  well_formed e -> well_formed (setLink href text e).
Proof.
  intro Hwf. pose proof (begin_in_bounds e Hwf) as Hb.
  destruct Hwf as (Hft & Hto & _).
  unfold setLink.
  destruct (String.eqb href EmptyString); [|destruct (from e =? to e)];
    unfold chain; cbn [fold_left]; apply run_well_formed; unfold focus.
  - destruct (extend_facts (begin e) Hb) as (H1 & Hd1 & _).
    destruct (unsetLink_facts _ H1) as (H2 & Ht2 & _).
    apply insertText_at_facts; [exact H2|exact Hft|].
    rewrite <- length_text_of, Ht2, length_text_of, Hd1. exact Hto.
  - destruct (extend_facts (begin e) Hb) as (H1 & _).
    destruct (setLink_href_facts href _ H1) as (H2 & _).
    unfold insertText. destruct H2 as [H2a H2b].
    apply insertText_at_facts; [split|..]; assumption.
  - destruct (insertText_at_facts (from e) (to e) text (begin e) Hb Hft Hto)
      as (H1 & _).
    destruct (setTextSelection_facts (from e)
                (from e + String.length text)
                (insertText_at (from e) (to e) text (begin e))
                ltac:(lia)) as (H2 & _).
    destruct (extend_facts _ H2) as (H3 & _).
    now destruct (setLink_href_facts href _ H3) as (H4 & _).
Qed.

(** X10.  Every submit of the link sub-form keeps the selection inside
    the document: a well-formed editor state stays well-formed through
    the render of the form, through [setLink] with any URL and display
    text, and through both in a row. *)
Theorem link_form_keeps_selection_in_document (values : InsertLinkFormValues)
    (e : Editor) :
  well_formed e ->
  well_formed (fst (InsertLinkForm e))
  /\ well_formed (setLink (url values) (displayText values) e)
  /\ well_formed (submitLinkForm values e).
Proof.
  intro Hwf. split; [now apply InsertLinkForm_keeps_bounds|].
  split; [now apply setLink_keeps_bounds|].
  unfold submitLinkForm, onInsert.
  apply setLink_keeps_bounds. now apply InsertLinkForm_keeps_bounds.
Qed.

Lemma link_form_keeps_selection_in_document_witness :
  well_formed
    (submitLinkForm {| url := "https://x.test"; displayText := "XY" |}
       across_links).
Proof.
  refine (proj2 (proj2 (link_form_keeps_selection_in_document
                          {| url := "https://x.test"; displayText := "XY" |}
                          across_links _))).
  unfold well_formed. simpl. repeat split; lia.
Defined.

(** X11.  Outside the branch that inserts at a cursor, [setLink] changes
    the characters of the document only in the selection it reads: for a
    non-empty display text, with an empty URL or a non-empty selection,
    the characters after the submit are those before the selection, the
    display text, and those after the selection. *)
Theorem setLink_changes_only_selected_text (href text : string) (e : Editor) :
  well_formed e ->
  text <> EmptyString ->
  href = EmptyString \/ from e < to e ->
  text_of (doc (setLink href text e))
  = firstn (from e) (text_of (doc e)) ++ list_ascii_of_string text
      ++ skipn (to e) (text_of (doc e)).
Proof.
  intros Hwf _ Hcase. pose proof (begin_in_bounds e Hwf) as Hb.
  destruct Hwf as (Hft & Hto & _).
  unfold setLink.
  destruct (String.eqb href EmptyString) eqn:Eh.
  - unfold chain. cbn [fold_left]. unfold focus, run. cbn [doc].
    destruct (extend_facts (begin e) Hb) as (H1 & Hd1 & _).
    destruct (unsetLink_facts _ H1) as (H2 & Ht2 & _).
    assert (Hlen : to e <= List.length
                     (tr_doc (unsetLink (extendMarkRange_link (begin e))))).
    { rewrite <- length_text_of, Ht2, length_text_of, Hd1. exact Hto. }
    destruct (insertText_at_facts (from e) (to e) text _ H2 Hft Hlen)
      as (_ & Ht3).
    unfold insertContentAt. rewrite Ht3, Ht2, Hd1. reflexivity.
  - apply String.eqb_neq in Eh.
    destruct Hcase as [Hc|Hlt]; [congruence|].
    assert (En : (from e =? to e) = false) by (apply Nat.eqb_neq; lia).
    rewrite En. unfold chain. cbn [fold_left]. unfold focus, run. cbn [doc].
    destruct (insertText_at_facts (from e) (to e) text (begin e) Hb Hft Hto)
      as (H1 & Ht1).
    destruct (setTextSelection_facts (from e)
                (from e + String.length text)
                (insertText_at (from e) (to e) text (begin e))
                ltac:(lia)) as (H2 & Hd2).
    destruct (extend_facts _ H2) as (H3 & Hd3 & _).
    destruct (setLink_href_facts href _ H3) as (_ & Ht4 & _).
    unfold insertContentAt in *. rewrite Ht4, Hd3, Hd2, Ht1. reflexivity.
Qed.

Lemma setLink_changes_only_selected_text_witness :
  text_of (doc (setLink "https://x.test" "XY" across_links))
  = list_ascii_of_string "aXYf".
Proof.
  refine (setLink_changes_only_selected_text "https://x.test" "XY"
            across_links _ _ _).
  - unfold well_formed. simpl. repeat split; lia.
  - discriminate.
  - right. simpl. lia.
Defined.

(** X12.  With a cursor that is neither in nor next to a link, a
    non-empty URL and a non-empty display text, [setLink] inserts the
    display text at the cursor, carrying the link to that URL, leaves
    the rest of the document as it is, and puts the cursor after the
    inserted text. *)
Theorem setLink_inserts_link_at_cursor (href text : string) (e : Editor) :
  from e = to e ->
  href <> EmptyString ->
  text <> EmptyString ->
  getMarkRange (doc e) (from e) = None ->
  let e' := setLink href text e in
  doc e' = firstn (from e) (doc e) ++ cells (Some href) text
             ++ skipn (from e) (doc e)
  /\ from e' = from e + String.length text
  /\ to e' = from e + String.length text.
Proof.
  intros Heq Hhref Htext Hnone. cbv zeta.
  destruct text as [|c text]; [congruence|].
  unfold setLink. apply String.eqb_neq in Hhref. rewrite Hhref.
  rewrite <- Heq, Nat.eqb_refl.
  unfold chain. cbn [fold_left]. unfold focus.
  assert (Hext : extendMarkRange_link (begin e) = begin e).
  { unfold extendMarkRange_link. cbn [begin tr_doc tr_from]. now rewrite Hnone. }
  rewrite Hext. unfold setLink_href, begin. cbn [tr_from tr_to tr_doc].
  rewrite <- Heq, Nat.eqb_refl.
  unfold insertText, insertText_at, insertion_link, run.
  cbn [tr_from tr_to tr_doc tr_storedMarks doc from to].
  repeat split.
Qed.

Lemma setLink_inserts_link_at_cursor_witness :
  doc (setLink "https://x.test" "the " cursor_in_plain)
  = (cells None "see " ++ cells (Some "https://x.test"%string) "the "
       ++ cells None "docs").
Proof.
  refine (proj1 (setLink_inserts_link_at_cursor "https://x.test" "the "
                   cursor_in_plain eq_refl _ _ eq_refl)).
  - discriminate.
  - discriminate.
Defined.

(** X13.  On a selection covered by a link, the render of the link
    sub-form selects the whole range of the link and changes nothing
    else in the editor, and the form is pre-filled with the URL found on
    the selection and with the whole text of the link. *)
Theorem InsertLinkForm_prefills_from_link (e : Editor) (a b : nat) :
  well_formed e ->
  link_covers e a b ->
  fst (InsertLinkForm e)
  = {| doc := doc e; from := a; to := b; storedMarks := None;
       done := done e; undone := undone e |}
  /\ getAttributes_link_href e = Some (url (snd (InsertLinkForm e)))
  /\ url (snd (InsertLinkForm e)) <> EmptyString
  /\ displayText (snd (InsertLinkForm e)) = textBetween (doc e) a b.
Proof.
  intros (Hft & Hto & _) Hcov.
  assert (Hp : from e <= List.length (doc e)) by lia.
  pose proof (InsertLinkForm_extends e a b Hcov Hp) as Hfst.
  split; [exact Hfst|].
  destruct Hcov as (Ht & _).
  assert (Hd : displayText (snd (InsertLinkForm e))
               = textBetween (doc (fst (InsertLinkForm e)))
                   (from (fst (InsertLinkForm e)))
                   (to (fst (InsertLinkForm e)))) by reflexivity.
  rewrite Hfst in Hd. cbn [doc from to] in Hd.
  unfold InsertLinkForm at 1 2. cbn [snd url].
  destruct (getAttributes_link_href e) as [[|c h]|]; try discriminate.
  repeat split; [discriminate|exact Hd].
Qed.

Lemma InsertLinkForm_prefills_from_link_witness :
  snd (InsertLinkForm cursor_in_link)
  = {| url := "https://a.test"; displayText := "here" |}.
Proof.
  assert (Hwf : well_formed cursor_in_link)
    by (unfold well_formed; simpl; repeat split; lia).
  assert (Hcov : link_covers cursor_in_link 3 7)
    by (unfold link_covers; simpl; repeat split; lia).
  destruct (InsertLinkForm_prefills_from_link cursor_in_link 3 7 Hwf Hcov)
    as (_ & _ & _ & Hd).
  destruct (snd (InsertLinkForm cursor_in_link)) as [u t] eqn:E.
  cbn [displayText] in Hd. subst t.
  vm_compute in E. injection E as <-. reflexivity.
Defined.

(** X14.  Rendering the link sub-form again changes nothing more: on a
    well-formed editor state the editor after two renders is the editor
    after one, so the selection does not keep growing while the form is
    shown. *)
Theorem InsertLinkForm_render_again (e : Editor) :
  well_formed e ->
  fst (InsertLinkForm (fst (InsertLinkForm e))) = fst (InsertLinkForm e).
Proof.
  intros (Hft & Hto & Hst).
  assert (Hp : from e <= List.length (doc e)) by lia.
  assert (Hstay : forall x : Editor,
            fst (InsertLinkForm x) = x \/ fst (InsertLinkForm x)
                                         = chain x [extendMarkRange_link]).
  { intro x. unfold InsertLinkForm. cbn [fst].
    destruct (truthy (getAttributes_link_href x)); auto. }
  assert (Hsame : chain e [extendMarkRange_link] = e
                  \/ exists a b,
                       getMarkRange (doc e) (from e) = Some (a, b)
                       /\ chain e [extendMarkRange_link]
                          = {| doc := doc e; from := a; to := b;
                               storedMarks := None;
                               done := done e; undone := undone e |}).
  { unfold chain. cbn [fold_left]. unfold extendMarkRange_link.
    cbn [begin tr_doc tr_from tr_to].
    destruct (getMarkRange (doc e) (from e)) as [[a b]|] eqn:Hr.
    - destruct ((a <=? from e) && (to e <=? b))%bool.
      + right. exists a, b. split; [reflexivity|].
        unfold run. cbn. destruct (a =? b); reflexivity.
      + left. unfold run, begin. cbn.
        destruct e as [d f t st dn un]. cbn in *.
        destruct (f =? t) eqn:E; [reflexivity|].
        apply Nat.eqb_neq in E. rewrite Hst by lia. reflexivity.
    - left. unfold run, begin. cbn.
      destruct e as [d f t st dn un]. cbn in *.
      destruct (f =? t) eqn:E; [reflexivity|].
      apply Nat.eqb_neq in E. rewrite Hst by lia. reflexivity. }
  destruct (Hstay e) as [H1|H1]; rewrite H1.
  - exact H1.
  - destruct Hsame as [Hs|(a & b & Hr & Hs)]; rewrite Hs.
    + rewrite <- Hs at 2. exact H1.
    + set (e1 := {| doc := doc e; from := a; to := b; storedMarks := None;
                    done := done e; undone := undone e |}).
      destruct (Hstay e1) as [H2|H2]; rewrite H2; [reflexivity|].
      pose proof (getMarkRange_idem _ _ _ _ Hp Hr) as Hidem.
      rewrite (chain_extend_covered e1 a b Hidem (le_n _) (le_n _)).
      unfold e1. cbn. destruct (a =? b); reflexivity.
Qed.

Lemma InsertLinkForm_render_again_witness :
  fst (InsertLinkForm (fst (InsertLinkForm cursor_in_link)))
  = fst (InsertLinkForm cursor_in_link).
Proof.
  apply InsertLinkForm_render_again.
  unfold well_formed. simpl. repeat split; lia.
Defined.

(** ** Linking and unlinking *)

Lemma link_at_after_run (d : Doc) : forall b,
  run_len (skipn b d) = 0 -> link_at d b = None.
Proof.
  induction d as [|c d IH]; intros [|b] H; try reflexivity.
  - unfold link_at. cbn in *. unfold has_link in H.
    destruct (link c); [discriminate|reflexivity].
  - apply (IH b). exact H.
Qed.

Lemma linked_cells (href text : string) :
  Forall linked (cells (Some href) text).
Proof.
  unfold cells. apply Forall_map. apply Forall_forall. reflexivity.
Qed.

Lemma cells_of_plain (l : list Cell) :
  plain l -> cells None (string_of_list_ascii (text_of l)) = l.
Proof.
  intro Hp. unfold cells, text_of.
  rewrite list_ascii_of_string_of_list_ascii, map_map.
  induction Hp as [|c l Hc Hl IH]; [reflexivity|].
  cbn [map]. rewrite IH. destruct c as [a m]. cbn in *. now subst m.
Qed.

(** X15.  Linking a selection and then removing the link gives back
    plain text: when the characters next to the selection carry no
    link, submitting a URL with a display text and then submitting the
    form again with an empty URL leaves the document with the selection
    replaced by the unlinked display text; if the selection was plain
    text and the display text is the selected text, the document is the
    one before the two submits. *)
Theorem link_then_unlink (href text : string) (e : Editor) :
  well_formed e ->
  from e < to e ->
  href <> EmptyString ->
  text <> EmptyString ->
  run_len (rev (firstn (from e) (doc e))) = 0 ->
  run_len (skipn (to e) (doc e)) = 0 ->
  let e1 := onInsert {| url := href; displayText := text |} e in
  let e2 := submitLinkForm {| url := EmptyString; displayText := text |} e1 in
  doc e2 = firstn (from e) (doc e) ++ cells None text ++ skipn (to e) (doc e)
  /\ (plain (slice (from e) (to e) (doc e)) ->
      text = textBetween (doc e) (from e) (to e) ->
      doc e2 = doc e).
Proof.
  intros Hwf Hlt Hhref Htext Hpre Hpost. cbv zeta.
  pose proof Hwf as (Hft & Hto & _).
  assert (Hacross : across_link (doc e) (from e) (to e) = None).
  { unfold across_link. rewrite (link_at_after_run _ _ Hpost).
    destruct (link_at (doc e) (from e)); reflexivity. }
  destruct (setLink_replaces_selection e href text Hwf Hlt Hhref Htext Hacross)
    as (Hd1 & Hf1 & Ht1).
  set (e1 := onInsert {| url := href; displayText := text |} e) in *.
  unfold replaced_and_linked in Hd1.
  assert (Hlen : List.length (firstn (from e) (doc e)) = from e)
    by (apply firstn_length_le; lia).
  assert (Hn : 1 <= String.length text)
    by (destruct text; [congruence|simpl; lia]).
  assert (Hwf1 : well_formed e1)
    by (apply setLink_keeps_bounds; exact Hwf).
  assert (Hslice : slice (from e1) (to e1) (doc e1) = cells (Some href) text).
  { unfold slice. rewrite Hd1, Hf1, Ht1.
    rewrite skipn_app_len by exact Hlen.
    replace (from e + String.length text - from e)
      with (String.length text) by lia.
    apply firstn_app_len. apply cells_length. }
  assert (Hcov : link_covers e1 (from e) (from e + String.length text)).
  { unfold link_covers. split; [|split].
    - unfold getAttributes_link_href.
      assert (En : (from e1 =? to e1) = false)
        by (apply Nat.eqb_neq; lia).
      rewrite En, Hslice.
      destruct text as [|c text]; [congruence|].
      destruct href as [|h href]; [congruence|]. reflexivity.
    - rewrite Hd1, Hf1.
      pose proof (getMarkRange_of_shape (firstn (from e) (doc e))
                    (cells (Some href) text) (skipn (to e) (doc e))) as Hs.
      rewrite length_app, cells_length, Hlen in Hs.
      apply Hs; auto.
      + destruct text; [congruence|discriminate].
      + apply linked_cells.
    - rewrite Ht1. apply le_n. }
  destruct (submit_empty_url_replaces e1 text (from e)
              (from e + String.length text) Hwf1 Hcov) as (Hd2 & _).
  assert (Hdoc : doc (submitLinkForm
                        {| url := EmptyString; displayText := text |} e1)
                 = firstn (from e) (doc e) ++ cells None text
                     ++ skipn (to e) (doc e)).
  { assert (Hsk : skipn (from e + String.length text) (doc e1)
                    = skipn (to e) (doc e)).
    { rewrite Hd1, app_assoc. apply skipn_app_len.
      rewrite length_app, cells_length, Hlen. reflexivity. }
    rewrite Hd2, Hsk, Hd1.
    now rewrite firstn_app_len by exact Hlen. }
  split; [exact Hdoc|].
  intros Hplain Hsame. rewrite Hdoc, Hsame.
  unfold textBetween. fold (text_of (slice (from e) (to e) (doc e))).
  rewrite cells_of_plain by exact Hplain.
  rewrite slice_rest by lia. apply firstn_skipn.
Qed.

Lemma link_then_unlink_witness :
  doc (submitLinkForm {| url := EmptyString; displayText := "Example" |}
         (onInsert {| url := "https://x.test"; displayText := "Example" |}
            example_selected))
  = doc example_selected.
Proof.
  refine (proj2 (link_then_unlink "https://x.test" "Example"
                   example_selected _ _ _ _ eq_refl eq_refl) _ eq_refl).
  - unfold well_formed. simpl. repeat split; lia.
  - simpl. lia.
  - discriminate.
  - discriminate.
  - unfold plain. simpl. repeat constructor.
Defined.

End EditorMore.

(* ================================================================== *)
(** * Further edge behaviour                                            *)
(* ================================================================== *)

Section EdgeFacts.

Import Regex WorkModal Examples Described.

Local Open Scope list_scope.

Lemma app_eq_split {A : Type} (x : list A) : forall (y u v : list A),
  x ++ y = u ++ v -> List.length x <= List.length u ->
  x = firstn (List.length x) u /\ y = skipn (List.length x) u ++ v.
Proof.
  induction x as [|a x IH]; intros y u v H Hlen.
  - simpl in *. auto.
  - destruct u as [|b u]; [simpl in Hlen; lia|].
    simpl in H. injection H as <- H.
    simpl in Hlen. destruct (IH y u v H ltac:(lia)) as [H1 H2].
    simpl. split; congruence.
Qed.

Lemma is_word_alnum (a : ascii) : is_alnum a = true -> is_word a = true.
Proof. unfold is_word. intros ->. reflexivity. Qed.

Lemma last_seen_word (x : list ascii) : forall prev,
  x <> [] -> forallb is_alnum x = true ->
  is_word_at (last_seen prev x) = true.
Proof.
  induction x as [|a x IH]; intros prev Hne Hx; [congruence|].
  cbn [forallb] in Hx. apply andb_prop in Hx as [Ha Hx].
  destruct x as [|b x].
  - simpl. now apply is_word_alnum.
  - change (last_seen prev (a :: b :: x))
      with (last_seen (Some a) (b :: x)).
    apply IH; [discriminate|exact Hx].
Qed.

Lemma forallb_firstn {A : Type} (f : A -> bool) (n : nat) (l : list A) :
  forallb f l = true -> forallb f (firstn n l) = true.
Proof.
  revert n. induction l as [|a l IH]; intros [|n] H; try reflexivity.
  cbn [forallb] in H. apply andb_prop in H as [Ha Hl].
  cbn [firstn forallb]. now rewrite Ha, IH.
Qed.

Lemma forallb_skipn {A : Type} (f : A -> bool) (n : nat) (l : list A) :
  forallb f l = true -> forallb f (skipn n l) = true.
Proof.
  revert n. induction l as [|a l IH]; intros [|n] H; try reflexivity.
  - exact H.
  - cbn [forallb] in H. apply andb_prop in H as [Ha Hl].
    cbn [skipn]. now apply IH.
Qed.

(** X16.  The url rule is not only permissive: since the label after a
    dot must end, at a word boundary, within six characters, a non-empty
    string in which every dot is followed by at least seven letters or
    digits is refused with the pattern error. *)
Theorem url_rule_rejects_long_labels (s : string) :
  s <> EmptyString ->
  long_labels (list_ascii_of_string s) ->
  joi_string_pattern_allow_empty url_pattern s = [string_pattern_name].
Proof.
  intros Hne Hlong.
  assert (Hno : test url_pattern s = false).
  { destruct (test url_pattern s) eqn:E; [|reflexivity]. exfalso.
    unfold test in E. apply list_test_url_shape in E
      as (pre & a & tld & post & Hs & _ & [Hlo Hhi] & _ & Hb).
    destruct (Hlong (pre ++ [a]) (tld ++ post)) as (w & rest' & Hw & Hlen & Hal).
    { rewrite Hs, <- app_assoc. reflexivity. }
    destruct (app_eq_split tld post w rest' Hw ltac:(lia)) as [Ht Hp].
    assert (Hword : is_word_at (last_seen None tld) = true).
    { apply last_seen_word.
      - intros ->. simpl in Hlo. lia.
      - rewrite Ht. now apply forallb_firstn. }
    assert (Hnext : is_word_at (hd_error post) = true).
    { pose proof (forallb_skipn is_alnum (List.length tld) w Hal) as Hsk.
      assert (Hl : List.length (skipn (List.length tld) w)
                   = 7 - List.length tld)
        by (rewrite length_skipn; lia).
      destruct (skipn (List.length tld) w) as [|b r] eqn:Er;
        [cbn [List.length] in Hl; lia|].
      rewrite Hp. cbn [app hd_error is_word_at].
      cbn [forallb] in Hsk. apply andb_prop in Hsk as [Hb' _].
      now apply is_word_alnum. }
    unfold boundary in Hb. rewrite Hword, Hnext in Hb. discriminate. }
  unfold joi_string_pattern_allow_empty. rewrite Hno.
  destruct s; [congruence|reflexivity].
Qed.

Lemma long_labels_b_ok (l : list ascii) :
  long_labels_b l = true -> long_labels l.
Proof.
  induction l as [|a l IH]; intros Hb pre rest H.
  - destruct pre; discriminate H.
  - cbn [long_labels_b] in Hb. apply andb_prop in Hb as [Hhere Hl].
    destruct pre as [|c pre].
    + simpl in H. injection H as Ha Hr. subst a l.
      rewrite Ascii.eqb_refl in Hhere. cbn [negb orb] in Hhere.
      apply andb_prop in Hhere as [Hal Hlen]. apply Nat.leb_le in Hlen.
      exists (firstn 7 rest), (skipn 7 rest).
      split; [now rewrite firstn_skipn|].
      split; [apply firstn_length_le; exact Hlen|exact Hal].
    + simpl in H. injection H as _ H. exact (IH Hl pre rest H).
Qed.

Lemma url_rule_rejects_long_labels_witness :
  joi_string_pattern_allow_empty url_pattern "example.technology"
  = [string_pattern_name].
Proof.
  apply url_rule_rejects_long_labels; [discriminate|].
  apply long_labels_b_ok. reflexivity.
Defined.

Lemma setDate_twice (f : DateInput) (s s' : string) (v : FormData) :
  setDate f s (setDate f s' v) = setDate f s v.
Proof. destruct f; reflexivity. Qed.

Lemma date_onChange_twice (f : DateInput) (s s' : string) (w : Modal) :
  date_onChange f s (date_onChange f s' w) = date_onChange f s w.
Proof.
  unfold date_onChange. cbn [store formValues errors effectItem].
  now rewrite setDate_twice.
Qed.

(** X17.  A change event of a date picker that arrives twice has the
    effect of one: the handler is idempotent for every date and every
    keyboard input. *)
Theorem pickDate_idempotent (f : DateInput) (d : JsDate.Date)
    (k : option string) (w : Modal) :
  pickDate f d k (pickDate f d k w) = pickDate f d k w.
Proof.
  unfold pickDate, datePickerOnChange.
  destruct d as [t|]; cbn [JsDate.isValid];
    destruct (isEmpty_input k);
    rewrite ?date_onChange_twice; reflexivity.
Qed.

(** X18.  Opening the modal on a stored item that passes the schema and
    submitting it unchanged dispatches the edit action with exactly that
    item: every field, the identifier included, comes back from the form
    as it went in. *)
Theorem edit_unchanged_round_trip (P : FormData -> Prop) (w : Modal)
    (i : FormData) :
  reachable P w ->
  isOpen w = false ->
  schema i = [] ->
  submitted_action (openModal (Some i) w) = Some (editItem items_path i).
Proof.
  intros Hr Hc Hs.
  destruct (openModal_from_closed w (Some i) (reachable_inv P w Hr) Hc)
    as [Hf Hi].
  unfold submitted_action. rewrite new_actions_clickSubmit.
  unfold isEditMode. rewrite Hf, Hi, Hs. reflexivity.
Qed.

Lemma edit_unchanged_round_trip_witness :
  submitted_action edit_opened = Some (editItem items_path stored_item).
Proof.
  exact (edit_unchanged_round_trip any_item mount stored_item
           (reach_mount any_item) eq_refl eq_refl).
Defined.

Lemma schema_fields (v : FormData) (g : Field) (e : JoiError) :
  In (g, e) (schema v) ->
  g = f_id \/ g = f_name \/ g = f_position \/ g = f_url.
Proof.
  intro Hin. unfold schema, joi_string_allow_empty in Hin.
  cbn [at_field map app] in Hin.
  repeat (apply in_app_or in Hin as [Hin|Hin];
          [apply at_field_inv in Hin; subst g; tauto|]).
  destruct Hin.
Qed.

Lemma errors_useEffect (w : Modal) (x : Field * JoiError) :
  In x (errors (useEffect w)) -> In x (errors w).
Proof.
  unfold useEffect.
  destruct (item_eqb (item w) (effectItem w)); [auto|].
  destruct (item w); cbn; auto. intros [].
Qed.

(** X19.  In no reachable state does the modal show an error on a date
    field or on the summary: the errors kept for display only ever
    concern the identifier, the name, the position and the url. *)
Theorem no_date_or_summary_error (P : FormData -> Prop) (w : Modal)
    (g : Field) (e : JoiError) :
  reachable P w ->
  In (g, e) (errors w) ->
  g = f_id \/ g = f_name \/ g = f_position \/ g = f_url.
Proof.
  intro Hr. revert g e.
  induction Hr as [|w w' Hr IH Hstep]; intros g e Hin.
  - destruct Hin.
  - destruct Hstep as [p w Hc Hp|f s w Ho|f d k w Ho|w Ho|w Ho].
    + apply errors_useEffect in Hin. exact (IH g e Hin).
    + exact (IH g e Hin).
    + unfold pickDate in Hin.
      rewrite (datePickerOnChange_keeps errors) in Hin by reflexivity.
      exact (IH g e Hin).
    + apply errors_useEffect in Hin. unfold handleSubmit in Hin.
      destruct (schema (formValues w)) as [|x xs] eqn:Hs.
      * destruct Hin.
      * cbn [errors] in Hin. rewrite <- Hs in Hin.
        exact (schema_fields _ g e Hin).
    + apply errors_useEffect in Hin. destruct Hin.
Qed.

Lemma no_date_or_summary_error_witness :
  f_name = f_id \/ f_name = f_name \/ f_name = f_position \/ f_name = f_url.
Proof.
  refine (no_date_or_summary_error any_item (clickSubmit name_missing)
            f_name string_empty _ _).
  - eapply reach_step; [eapply reach_step; [eapply reach_step|]|].
    + apply reach_mount.
    + apply (step_open any_item None mount eq_refl). discriminate.
    + apply step_text. reflexivity.
    + apply step_submit. reflexivity.
  - left. reflexivity.
Defined.

End EdgeFacts.
